(** * Sparse matrices stored as nested dictionaries: model and properties

    A shallow embedding of [sparse.py] (class [SparseMatrix]): the text
    primitives the loader relies on ([str.strip], [str.split], slicing,
    [int], [str]), insertion-ordered dictionaries, the matrix operations,
    the file codec, and a store-level model of the same operations in which
    matrices and their dictionaries are mutable objects with identity.

    Modelling choices:
    - Python integers are [Z]; the interpreter's optional limit on the
      number of digits converted between [int] and [str] is not modelled.
    - Text is a list of characters with code points below 256 ([ascii]).
    - A [dict] is an association list in insertion order, without repeated
      keys; assigning to an existing key keeps its position.
    - Exceptions are values of [exn]; a computation that may raise returns
      [exn + A].
    - The values stored in a matrix are integers throughout, as the loader
      produces them; floats, which a caller can store as well, appear only
      where a matrix holding one is written to a file.
    - The operating system is given by what it answers when a file is
      read, opened for writing and written to; nothing is assumed of these
      answers. *)

From Stdlib Require Import ZArith List Ascii String Bool Lia Floats.
From stdpp Require Import gmap strings.
Import ListNotations.

Local Open Scope Z_scope.

(* ===================================================================== *)
(** * Part I: definitions *)
(* ===================================================================== *)

(** ** Text primitives *)

Definition text := list ascii.

Definition txt (s : string) : text := list_ascii_of_string s.

Definition code (c : ascii) : Z := Z.of_N (N_of_ascii c).

Definition newline : ascii := ascii_of_N 10.
Definition carriage_return : ascii := ascii_of_N 13.

(** The C-level [Py_ISSPACE]: tab, newline, vertical tab, form feed,
    carriage return and space. *)
Definition Py_ISSPACE (c : ascii) : bool :=
  ((9 <=? code c) && (code c <=? 13)) || (code c =? 32).

(** [str.isspace] on one character, as used by [str.strip()]: the above,
    the separators 0x1C-0x1F, NEL (0x85) and the no-break space (0xA0). *)
Definition Py_UNICODE_ISSPACE (c : ascii) : bool :=
  Py_ISSPACE c || ((28 <=? code c) && (code c <=? 31))
  || (code c =? 133) || (code c =? 160).

Definition is_digit (c : ascii) : bool := (48 <=? code c) && (code c <=? 57).

Definition digit_value (c : ascii) : Z := code c - 48.

Fixpoint drop_while (p : ascii -> bool) (s : text) : text :=
  match s with
  | [] => []
  | c :: s' => if p c then drop_while p s' else s
  end.

Definition lstrip (s : text) : text := drop_while Py_UNICODE_ISSPACE s.
Definition rstrip (s : text) : text := rev (drop_while Py_UNICODE_ISSPACE (rev s)).

(** [s.strip()] *)
Definition strip (s : text) : text := rstrip (lstrip s).

(** [s.split(sep)] for a one-character separator: always at least one
    field. *)
Fixpoint split (sep : ascii) (s : text) : list text :=
  match s with
  | [] => [[]]
  | c :: s' =>
      if Ascii.eqb c sep then [] :: split sep s'
      else match split sep s' with
           | [] => [[c]]
           | w :: ws => (c :: w) :: ws
           end
  end.

(** [s[1:-1]] *)
Definition slice_1_m1 (s : text) : text := removelast (tl s).

(** *** [int(s)]

    [int] on a string first maps non-ASCII white space to a space and cuts
    the string at the first other non-ASCII character, which it replaces by
    a question mark (an ASCII-only string is used as it is); the result is
    read as: white space, an optional sign, decimal digits in which single
    underscores may separate digits, white space, end of string. *)

Fixpoint transform_decimal_and_space (s : text) : text :=
  match s with
  | [] => []
  | c :: s' =>
      if code c <? 127 then c :: transform_decimal_and_space s'
      else if Py_UNICODE_ISSPACE c then " "%char :: transform_decimal_and_space s'
      else ["?"%char]
  end.

Definition to_ascii_buffer (s : text) : text :=
  if forallb (fun c => code c <? 128) s then s
  else transform_decimal_and_space s.

(** Scan of the digit run. [prev_us] tells that the previous character was
    an underscore, [acc] is the value read so far and [digits] the number
    of digits read. The result is [None] on a doubled or trailing
    underscore, otherwise the value, the digit count and the rest. *)
Fixpoint scan_digits (s : text) (prev_us : bool) (acc : Z) (digits : nat)
  : option (Z * nat * text) :=
  match s with
  | [] => if prev_us then None else Some (acc, digits, [])
  | c :: s' =>
      if is_digit c then scan_digits s' false (acc * 10 + digit_value c) (S digits)
      else if Ascii.eqb c "_"%char then
        if prev_us then None else scan_digits s' true acc digits
      else if prev_us then None else Some (acc, digits, s)
  end.

Definition read_sign (s : text) : Z * text :=
  match s with
  | c :: s' =>
      if Ascii.eqb c "+"%char then (1, s')
      else if Ascii.eqb c "-"%char then (-1, s')
      else (1, s)
  | [] => (1, s)
  end.

Definition starts_with_underscore (s : text) : bool :=
  match s with
  | c :: _ => Ascii.eqb c "_"%char
  | [] => false
  end.

(** [int(s)]; [None] stands for the [ValueError] it raises. *)
Definition py_int (s : text) : option Z :=
  let s1 := drop_while Py_ISSPACE (to_ascii_buffer s) in
  let '(sign, s2) := read_sign s1 in
  if starts_with_underscore s2 then None
  else match scan_digits s2 false 0 0 with
       | None => None
       | Some (v, digits, rest) =>
           match digits with
           | O => None
           | S _ =>
               match drop_while Py_ISSPACE rest with
               | [] => Some (sign * v)
               | _ :: _ => None
               end
           end
       end.

(** *** [str(n)] for an integer *)

Definition digit_char (d : Z) : ascii := ascii_of_N (Z.to_N (48 + d)).

(** Decimal digits of a non-negative number, most significant first,
    prepended to [acc]. The fuel bounds the number of digits. *)
Fixpoint digits_of (fuel : nat) (n : Z) (acc : text) : text :=
  match fuel with
  | O => acc
  | S fuel' =>
      let acc' := digit_char (n mod 10) :: acc in
      if n <? 10 then acc' else digits_of fuel' (n / 10) acc'
  end.

Definition str_nat (n : Z) : text := digits_of (S (Z.to_nat (Z.log2 n))) n [].

Definition str_int (n : Z) : text :=
  if n <? 0 then "-"%char :: str_nat (- n) else str_nat n.

(** *** Reading a text file

    Files are opened in text mode with the default newline handling: on
    input, a carriage return followed by a newline, and a lone carriage
    return, both read as a newline. *)

Fixpoint universal_newlines (s : text) : text :=
  match s with
  | [] => []
  | c :: s' =>
      if Ascii.eqb c carriage_return then
        match s' with
        | c' :: s'' =>
            if Ascii.eqb c' newline then newline :: universal_newlines s''
            else newline :: universal_newlines s'
        | [] => [newline]
        end
      else c :: universal_newlines s'
  end.

(** The lines of a text, each with its final newline (the last line may
    lack one). *)
Fixpoint lines_of (s : text) : list text :=
  match s with
  | [] => []
  | c :: s' =>
      if Ascii.eqb c newline then [c] :: lines_of s'
      else match lines_of s' with
           | [] => [[c]]
           | l :: ls => (c :: l) :: ls
           end
  end.

(** ** Exceptions *)

Inductive exn : Type :=
| FileNotFoundError
    (** [open] on a path that does not exist *)
| IndexError
    (** list index out of range *)
| InvalidLiteral (s : text)
    (** [ValueError]: invalid literal for [int()] with base 10 *)
| WrongFormat (cause : exn)
    (** [ValueError("Input file has wrong format: <cause>")] *)
| IncompatibleSizes.
    (** [ValueError("Matrix multiplication not possible with incompatible
        sizes.")] *)

(** The exceptions that are instances of [ValueError]. *)
Definition is_ValueError (e : exn) : bool :=
  match e with
  | InvalidLiteral _ | WrongFormat _ | IncompatibleSizes => true
  | FileNotFoundError | IndexError => false
  end.

Definition result (A : Type) : Type := exn + A.

Definition bind {A B : Type} (x : result A) (f : A -> result B) : result B :=
  match x with
  | inl e => inl e
  | inr a => f a
  end.

Notation "'let*' x ':=' c1 'in' c2" := (bind c1 (fun x => c2))
  (at level 10, x name, c1 at level 100, c2 at level 200).

(** [int(s)] as a computation that may raise. *)
Definition int_of (s : text) : result Z :=
  match py_int s with
  | Some n => inr n
  | None => inl (InvalidLiteral s)
  end.

(** [l[i]] on a list. *)
Definition index {A : Type} (l : list A) (i : nat) : result A :=
  match nth_error l i with
  | Some x => inr x
  | None => inl IndexError
  end.

(** ** Dictionaries with integer keys, in insertion order *)

Section Dict.
Context {V : Type}.

Definition dict : Type := list (Z * V).

(** [d.get(k)] *)
Fixpoint dict_lookup (d : dict) (k : Z) : option V :=
  match d with
  | [] => None
  | (k', v) :: d' => if k =? k' then Some v else dict_lookup d' k
  end.

(** [d.get(k, default)] *)
Definition dict_get (d : dict) (k : Z) (default : V) : V :=
  match dict_lookup d k with
  | Some v => v
  | None => default
  end.

(** [k in d] *)
Definition dict_contains (d : dict) (k : Z) : bool :=
  match dict_lookup d k with
  | Some _ => true
  | None => false
  end.

(** [d[k] = v]: an existing key keeps its place, a new key goes last. *)
Fixpoint dict_setitem (d : dict) (k : Z) (v : V) : dict :=
  match d with
  | [] => [(k, v)]
  | (k', v') :: d' =>
      if k =? k' then (k', v) :: d' else (k', v') :: dict_setitem d' k v
  end.

(** The keys, in iteration order. *)
Definition dict_keys (d : dict) : list Z := map fst d.

(** No key occurs twice. *)
Definition dict_wf (d : dict) : Prop := List.NoDup (dict_keys d).
End Dict.

Arguments dict V : clear implicits.

(** ** The matrix *)

Record SparseMatrix : Type := mkSparseMatrix {
  matrix : dict (dict Z);
  numRows : Z;
  numCols : Z
}.

(** [SparseMatrix(numRows=r, numCols=c)] *)
Definition new_matrix (r c : Z) : SparseMatrix :=
  {| matrix := []; numRows := r; numCols := c |}.

(** [range(n)] *)
Definition range (n : Z) : list Z := map Z.of_nat (seq 0 (Z.to_nat n)).

Definition get_element (self : SparseMatrix) (row col : Z) : Z :=
  dict_get (dict_get (matrix self) row []) col 0.

Definition set_element (self : SparseMatrix) (row col value : Z) : SparseMatrix :=
  let m :=
    if dict_contains (matrix self) row then matrix self
    else dict_setitem (matrix self) row [] in
  {| matrix := dict_setitem m row (dict_setitem (dict_get m row []) col value);
     numRows := numRows self;
     numCols := numCols self |}.

(** The position [(row, col)] is a stored entry. *)
Definition has_entry (self : SparseMatrix) (row col : Z) : bool :=
  match dict_lookup (matrix self) row with
  | Some cols => dict_contains cols col
  | None => false
  end.

(** The stored key pairs, in iteration order. *)
Definition stored_keys (self : SparseMatrix) : list (Z * Z) :=
  flat_map (fun '(r, cols) => map (fun c => (r, c)) (dict_keys cols)) (matrix self).

(** The loops of [add] and [subtract], with the combining operation as a
    parameter. *)
Definition elementwise (op : Z -> Z -> Z) (self other_matrix : SparseMatrix)
  : SparseMatrix :=
  fold_left
    (fun result row =>
       fold_left
         (fun result col =>
            set_element result row col
              (op (get_element self row col) (get_element other_matrix row col)))
         (range (numCols self)) result)
    (range (numRows self))
    (new_matrix (numRows self) (numCols self)).

Definition add (self other_matrix : SparseMatrix) : SparseMatrix :=
  elementwise Z.add self other_matrix.

Definition subtract (self other_matrix : SparseMatrix) : SparseMatrix :=
  elementwise Z.sub self other_matrix.

(** [sum(f(k) for k in ks)] *)
Definition sum_over (ks : list Z) (f : Z -> Z) : Z :=
  fold_left (fun acc k => acc + f k) ks 0.

(** [sum(self.get_element(row, k) * other_matrix.get_element(k, col)
        for k in range(self.numCols))] *)
Definition dot (self other_matrix : SparseMatrix) (row col : Z) : Z :=
  sum_over (range (numCols self))
    (fun k => get_element self row k * get_element other_matrix k col).

Definition multiply (self other_matrix : SparseMatrix) : result SparseMatrix :=
  if negb (numCols self =? numRows other_matrix) then inl IncompatibleSizes
  else
    inr
      (fold_left
         (fun result row =>
            fold_left
              (fun result col =>
                 if dict_contains (dict_get (matrix self) row []) col then
                   set_element result row col (dot self other_matrix row col)
                 else result)
              (dict_keys (matrix other_matrix)) result)
         (dict_keys (matrix self))
         (new_matrix (numRows self) (numCols other_matrix))).

(** ** The file codec *)

(** [(row, col, value)] of one line:
    [entry = line.strip()[1:-1].split(',')] and then
    [int(entry[0]), int(entry[1]), int(entry[2])]. *)
Definition parse_entry (line : text) : result (Z * Z * Z) :=
  let entry := split ","%char (slice_1_m1 (strip line)) in
  let* e0 := index entry 0 in
  let* row := int_of e0 in
  let* e1 := index entry 1 in
  let* col := int_of e1 in
  let* e2 := index entry 2 in
  let* value := int_of e2 in
  inr (row, col, value).

(** [int(line.split('=')[1])] *)
Definition header_value (line : text) : result Z :=
  let* field := index (split "="%char line) 1 in
  int_of field.

(** [matrix[row][col] = value], after creating [matrix[row]] when the row
    is new. *)
Definition store_entry (m : dict (dict Z)) (row col value : Z) : dict (dict Z) :=
  let m' := if dict_contains m row then m else dict_setitem m row [] in
  dict_setitem m' row (dict_setitem (dict_get m' row []) col value).

(** The loop over the lines that follow the two header lines. *)
Fixpoint load_entries (lines : list text) (m : dict (dict Z))
  : result (dict (dict Z)) :=
  match lines with
  | [] => inr m
  | line :: rest =>
      match strip line with
      | [] => load_entries rest m
      | _ :: _ =>
          match parse_entry line with
          | inl e => inl e
          | inr (row, col, value) => load_entries rest (store_entry m row col value)
          end
      end
  end.

(** The body of the [with] block of [load_matrix], on the lines of the
    file; [readline] at the end of the file gives the empty string. *)
Definition load_lines (lines : list text) : result (Z * Z * dict (dict Z)) :=
  let* rows := header_value (nth 0 lines []) in
  let* cols := header_value (nth 1 lines []) in
  let* m := load_entries (skipn 2 lines) [] in
  inr (rows, cols, m).

(** [load_matrix] on the file found at the path ([None] when there is no
    such file). It gives the values assigned to [self.numRows] and
    [self.numCols] and the dictionary it returns. Any exception raised while
    the file is opened and read is caught and replaced by the [ValueError]
    about the format. *)
Definition load_matrix (file : option text) : result (Z * Z * dict (dict Z)) :=
  match file with
  | None => inl (WrongFormat FileNotFoundError)
  | Some contents =>
      match load_lines (lines_of (universal_newlines contents)) with
      | inl e => inl (WrongFormat e)
      | inr loaded => inr loaded
      end
  end.

(** The object built by [__init__] around [load_matrix]. *)
Definition init_loaded (loaded : result (Z * Z * dict (dict Z))) : result SparseMatrix :=
  match loaded with
  | inl e => inl e
  | inr (rows, cols, m) => inr {| matrix := m; numRows := rows; numCols := cols |}
  end.

(** *** Files

    The operating system, as far as the program deals with it. [S] is the
    type of the states of its files. [read_text s path] is the text of the
    file that [open(path, 'r')] finds in the state [s], and [None] when it
    finds none. [open_write s path] is the state after [open(path, 'w')]
    has created the file or emptied it, and [None] when the path cannot be
    opened for writing: [open] raises an [OSError] and nothing has changed.
    [write s path t] is the state after [t] has been written to the file
    opened under [path]; writing to an open file is taken to succeed. Which
    paths lead to the same file, what a directory is and who may write
    where is the business of the system: nothing is assumed of the three
    functions. *)
Record file_system (S : Type) : Type := mkFileSystem {
  read_text : S -> string -> option text;
  open_write : S -> string -> option S;
  write : S -> string -> text -> S
}.

Arguments read_text {S} _ _ _.
Arguments open_write {S} _ _ _.
Arguments write {S} _ _ _ _.

(** [self.matrix = self.load_matrix(matrix_file)], the branch of
    [__init__] taken when [matrix_file] is given and not empty. *)
Definition load_file {S : Type} (os : file_system S) (s : S) (matrix_file : string)
  : result SparseMatrix :=
  init_loaded (load_matrix (read_text os s matrix_file)).

(** [__init__(matrix_file, numRows, numCols)], each argument [None] by
    default: the attributes [matrix], [numRows] and [numCols] of the new
    object. The test [if matrix_file:] fails for [None] and for the empty
    string; the dimensions are then the ones given, [None] included. *)
Definition init {S : Type} (os : file_system S) (s : S)
    (matrix_file : option string) (rows cols : option Z)
  : result (dict (dict Z) * option Z * option Z) :=
  match matrix_file with
  | Some file_path =>
      if negb (String.eqb file_path "") then
        let* M := load_file os s file_path in
        inr (matrix M, Some (numRows M), Some (numCols M))
      else inr ([], rows, cols)
  | None => inr ([], rows, cols)
  end.

(** [SparseMatrix(matrix_file=file_path)] *)
Definition from_file {S : Type} (os : file_system S) (s : S) (file_path : string)
  : result (dict (dict Z) * option Z * option Z) :=
  init os s (Some file_path) None None.

(** Loading from given contents. *)
Definition parse (contents : text) : result SparseMatrix :=
  init_loaded (load_matrix (Some contents)).

(** The text that [save_to_file] writes. *)
Definition entry_line (row col value : Z) : text :=
  txt "(" ++ str_int row ++ txt ", " ++ str_int col ++ txt ", "
  ++ str_int value ++ txt ")" ++ [newline].

Definition serialize (self : SparseMatrix) : text :=
  txt "rows=" ++ str_int (numRows self) ++ [newline]
  ++ txt "cols=" ++ str_int (numCols self) ++ [newline]
  ++ flat_map
       (fun '(row, cols) =>
          flat_map (fun '(col, value) => entry_line row col value) cols)
       (matrix self).

(** The strings that [save_to_file] passes to [file.write], in order. *)
Definition written (self : SparseMatrix) : list text :=
  (txt "rows=" ++ str_int (numRows self) ++ [newline])
  :: (txt "cols=" ++ str_int (numCols self) ++ [newline])
  :: flat_map
       (fun '(row, cols) => map (fun '(col, value) => entry_line row col value) cols)
       (matrix self).

(** [save_to_file]: the file is opened, which creates or empties it, and
    the strings are written to it one after the other. [None] when the file
    cannot be opened. *)
Definition save_to_file {S : Type} (self : SparseMatrix) (os : file_system S) (s : S)
    (file_path : string) : option S :=
  match open_write os s file_path with
  | None => None
  | Some opened =>
      Some (fold_left (fun s line => write os s file_path line) (written self) opened)
  end.

(** ** The same operations on a store of mutable objects

    In the program a matrix is an object that refers to a dictionary of
    rows, each of which refers to a dictionary of its own; [set_element]
    updates these dictionaries in place. The store below keeps every such
    object under a reference, so that sharing between a result and the
    operands, if there were any, would show. An operation applied to a
    reference of the wrong kind yields [None]. *)

Module Store.

Abbreviation loc := positive.

Inductive object : Type :=
| Instance (matrix : loc) (numRows numCols : Z)
    (** a [SparseMatrix]; [matrix] refers to its dictionary of rows *)
| Rows (d : dict loc)
    (** a dictionary from row index to the reference of a row *)
| Cols (d : dict Z).
    (** the dictionary of one row, from column index to value *)

Abbreviation store := (gmap loc object).

Definition alloc (h : store) (o : object) : store * loc :=
  let l := fresh (dom h) in (<[l := o]> h, l).

(** [SparseMatrix(numRows=r, numCols=c)]: a new empty dictionary and a
    new instance that refers to it. *)
Definition new_matrix (h : store) (r c : Z) : store * loc :=
  let '(h1, m) := alloc h (Rows []) in
  alloc h1 (Instance m r c).

Definition numRows (h : store) (self : loc) : option Z :=
  match h !! self with
  | Some (Instance _ r _) => Some r
  | _ => None
  end.

Definition numCols (h : store) (self : loc) : option Z :=
  match h !! self with
  | Some (Instance _ _ c) => Some c
  | _ => None
  end.

(** [self.matrix], the dictionary of rows. *)
Definition rows_of (h : store) (self : loc) : option (loc * dict loc) :=
  match h !! self with
  | Some (Instance m _ _) =>
      match h !! m with
      | Some (Rows d) => Some (m, d)
      | _ => None
      end
  | _ => None
  end.

Definition cols_at (h : store) (l : loc) : option (dict Z) :=
  match h !! l with
  | Some (Cols d) => Some d
  | _ => None
  end.

(** [self.matrix.get(row, {}).get(col, 0)]; the empty dictionary given as
    default is dropped at once and is not kept in the store. *)
Definition get_element (h : store) (self : loc) (row col : Z) : option Z :=
  '(_, d) ← rows_of h self;
  match dict_lookup d row with
  | None => Some 0
  | Some l => cols ← cols_at h l; Some (dict_get cols col 0)
  end.

(** A new row is a new dictionary, stored under the row index; the value
    is then assigned in the dictionary of the row, in place. *)
Definition set_element (h : store) (self : loc) (row col value : Z)
  : option store :=
  '(m, d) ← rows_of h self;
  let '(h1, l) :=
    match dict_lookup d row with
    | Some l => (h, l)
    | None =>
        let '(h', l) := alloc h (Cols []) in
        (<[m := Rows (dict_setitem d row l)]> h', l)
    end in
  cols ← cols_at h1 l;
  Some (<[l := Cols (dict_setitem cols col value)]> h1).

(** A loop whose body may fail. *)
Fixpoint for_each {A S : Type} (xs : list A) (body : S -> A -> option S) (s : S)
  : option S :=
  match xs with
  | [] => Some s
  | x :: xs' =>
      match body s x with
      | Some s' => for_each xs' body s'
      | None => None
      end
  end.

Definition elementwise (op : Z -> Z -> Z) (h : store) (self other_matrix : loc)
  : option (store * loc) :=
  r ← numRows h self;
  c ← numCols h self;
  let '(h0, result) := new_matrix h r c in
  h' ← for_each (range r)
         (fun h row =>
            c ← numCols h self;
            for_each (range c)
              (fun h col =>
                 x ← get_element h self row col;
                 y ← get_element h other_matrix row col;
                 set_element h result row col (op x y))
              h)
         h0;
  Some (h', result).

Definition add := elementwise Z.add.
Definition subtract := elementwise Z.sub.

Definition dot (h : store) (self other_matrix : loc) (row col : Z) : option Z :=
  c ← numCols h self;
  for_each (range c)
    (fun acc k =>
       x ← get_element h self row k;
       y ← get_element h other_matrix k col;
       Some (acc + x * y))
    0.

(** [col in self.matrix[row]] *)
Definition row_contains (h : store) (self : loc) (row col : Z) : option bool :=
  '(_, d) ← rows_of h self;
  l ← dict_lookup d row;
  cols ← cols_at h l;
  Some (dict_contains cols col).

Definition multiply (h : store) (self other_matrix : loc)
  : option (store * result loc) :=
  c ← numCols h self;
  r' ← numRows h other_matrix;
  if negb (c =? r') then Some (h, inl IncompatibleSizes)
  else
    r ← numRows h self;
    c' ← numCols h other_matrix;
    let '(h0, result) := new_matrix h r c' in
    '(_, d) ← rows_of h0 self;
    h' ← for_each (dict_keys d)
           (fun h row =>
              '(_, d') ← rows_of h other_matrix;
              for_each (dict_keys d')
                (fun h col =>
                   present ← row_contains h self row col;
                   if (present : bool) then
                     v ← dot h self other_matrix row col;
                     set_element h result row col v
                   else Some h)
                h)
           h0;
    Some (h', inr result).

(** The matrix an instance stands for: its dimensions and the contents
    of the dictionaries it refers to. *)
Fixpoint read_rows (h : store) (d : dict loc) : option (dict (dict Z)) :=
  match d with
  | [] => Some []
  | (k, l) :: d' =>
      cols ← cols_at h l;
      rest ← read_rows h d';
      Some ((k, cols) :: rest)
  end.

Definition contents (h : store) (self : loc) : option SparseMatrix :=
  '(_, d) ← rows_of h self;
  m ← read_rows h d;
  r ← numRows h self;
  c ← numCols h self;
  Some (mkSparseMatrix m r c).

(** The references an instance is made of: itself, its dictionary of
    rows and the dictionary of each row. *)
Definition footprint (h : store) (self : loc) : gset loc :=
  match rows_of h self with
  | Some (m, d) => {[self]} ∪ {[m]} ∪ list_to_set (map snd d)
  | None => {[self]}
  end.

(** Every object of [h] is still there in [h'], as it was. *)
Definition unchanged (h h' : store) : Prop :=
  forall l, l ∈ dom h -> h' !! l = h !! l.

(** What an operation must satisfy when it takes the store [h] to [h']
    and returns [r]: nothing that existed before has changed, and the
    result is made of new objects only. *)
Definition preserves_operands (h h' : store) (r : loc) : Prop :=
  unchanged h h' /\ (r ∉ dom h) /\ (footprint h' r ## dom h).

(** The instance [r] of [h] is made of objects that [h0] does not have,
    and its rows are distinct objects. *)
Definition owned (h0 h : store) (r : loc) : Prop :=
  exists m d nr nc,
    h !! r = Some (Instance m nr nc) /\ h !! m = Some (Rows d) /\
    (r ∉ dom h0) /\ (m ∉ dom h0) /\
    (forall l, In l (map snd d) -> l ∉ dom h0) /\
    List.NoDup (map snd d).

End Store.

(** ** Notions used in the statements *)

(** Every stored key pair lies inside the declared dimensions. *)
Definition keys_in_bounds (M : SparseMatrix) : bool :=
  forallb
    (fun '(r, c) => (0 <=? r) && (r <? numRows M) && (0 <=? c) && (c <? numCols M))
    (stored_keys M).

(** No dictionary of the matrix holds a key twice. *)
Definition matrix_wf (M : SparseMatrix) : Prop :=
  dict_wf (matrix M) /\ forall row cols, In (row, cols) (matrix M) -> dict_wf cols.

(** The stored entries, in the order in which [save_to_file] writes them. *)
Definition entries_of (m : dict (dict Z)) : list (Z * Z * Z) :=
  flat_map (fun '(row, cols) => map (fun '(col, value) => (row, col, value)) cols) m.

(** The lines of a file as the loader reads them. *)
Definition input_lines (contents : text) : list text :=
  lines_of (universal_newlines contents).

(** The lines after the two header lines. *)
Definition entry_lines (contents : text) : list text := skipn 2 (input_lines contents).

(** The tokens of an entry line: the line is trimmed, its first and last
    characters are dropped, and the rest is cut at the commas. *)
Definition entry_tokens (line : text) : list text :=
  split ","%char (slice_1_m1 (strip line)).

Definition is_integer (token : text) : bool :=
  match py_int token with
  | Some _ => true
  | None => false
  end.

(** An entry line on which [parse_entry] raises: fewer than three tokens,
    or one of the first three is not an integer. *)
Definition rejected_entry (line : text) : bool :=
  (length (entry_tokens line) <? 3)%nat
  || negb (forallb is_integer (firstn 3 (entry_tokens line))).

(** [s.startswith(prefix)] *)
Fixpoint starts_with (prefix s : text) : bool :=
  match prefix, s with
  | [], _ => true
  | p :: prefix', c :: s' => Ascii.eqb p c && starts_with prefix' s'
  | _ :: _, [] => false
  end.

(** The characters that may occur in a string accepted by [int]: white
    space, a sign, digits and underscores. *)
Definition integer_char (c : ascii) : bool :=
  Py_ISSPACE c || (code c =? 133) || (code c =? 160) || is_digit c
  || Ascii.eqb c "+"%char || Ascii.eqb c "-"%char || Ascii.eqb c "_"%char.

(** What an operation on the operands [a] and [b], which stand for [A] and
    [B], must satisfy when it ends in the store [h'] with the result [r]:
    nothing old has changed, the result is new, the operands still stand
    for [A] and [B], and the result stands for [R]. *)
Definition operation_ok (h : Store.store) (a b : Store.loc) (A B : SparseMatrix)
    (h' : Store.store) (r : Store.loc) (R : SparseMatrix) : Prop :=
  Store.preserves_operands h h' r /\
  Store.contents h' a = Some A /\
  Store.contents h' b = Some B /\
  Store.contents h' r = Some R.

(** ** Notions used in the proofs *)

(** A run of assignments whose value depends on the position only. *)
Definition fill (f : Z -> Z -> Z) (ps : list (Z * Z)) (M : SparseMatrix) : SparseMatrix :=
  fold_left (fun M '(r, c) => set_element M r c (f r c)) ps M.

(** One more digit read. *)
Definition digit_step (acc : Z) (c : ascii) : Z := acc * 10 + digit_value c.

(** A text on which a run of digits ends. *)
Definition ends_number (s : text) : Prop :=
  match s with
  | [] => True
  | c :: _ => is_digit c = false /\ Ascii.eqb c "_"%char = false
  end.

Definition line_of_entry (e : Z * Z * Z) : text :=
  let '(row, col, value) := e in entry_line row col value.

(** An entry line without its newline. *)
Definition entry_body (row col value : Z) : text :=
  txt "(" ++ str_int row ++ txt ", " ++ str_int col ++ txt ", "
  ++ str_int value ++ txt ")".

(** The assignments the loader makes for a list of entries. *)
Definition store_all (es : list (Z * Z * Z)) (m : dict (dict Z)) : dict (dict Z) :=
  fold_left (fun m '(row, col, value) => store_entry m row col value) es m.

(** The invariant of the loops on the store: old objects are as they were,
    the result is made of new objects, and it stands for the matrix [R]. *)
Definition result_inv (h0 : Store.store) (r : Store.loc) (h : Store.store)
    (R : SparseMatrix) : Prop :=
  Store.unchanged h0 h /\ Store.owned h0 h r /\ Store.contents h r = Some R.

(** ** Example inputs *)

(** A 1x2 and a 2x2 matrix whose product has a non-zero element at (0, 1). *)
Definition row_1x2 : text := txt "rows=1
cols=2
(0, 0, 1)
".

Definition unit_2x2 : text := txt "rows=2
cols=2
(0, 1, 1)
".

(** A 1x3 and a 3x1 matrix, with all keys inside their dimensions. *)
Definition row_1x3 : text := txt "rows=1
cols=3
(0, 2, 1)
".

Definition column_3x1 : text := txt "rows=3
cols=1
(2, 0, 1)
".

(** Two matrices whose sum is zero at a position where both are stored. *)
Definition add_witness_a : SparseMatrix := set_element (new_matrix 2 2) 0 1 3.
Definition add_witness_b : SparseMatrix := set_element (new_matrix 2 2) 0 1 (-3).

Definition roundtrip_example : SparseMatrix :=
  set_element (set_element (new_matrix 2 2) 0 0 5) 1 1 (-7).

(** An entry between brackets, and an entry of four tokens. *)
Definition bracketed_input : text := txt "rows=1
cols=1
[0, 0, 5]
".

Definition four_token_input : text := txt "rows=1
cols=1
(0, 0, 5, 9)
".

(** An entry without its closing parenthesis. *)
Definition unclosed_input : text := txt "rows=1
cols=1
(0, 0, 55
".

(** A second line with another key than [cols]. *)
Definition other_key_input : text := txt "rows=2
size=2
(0, 1, 4)
".

(** A value with a fractional part. *)
Definition fractional_input : text := txt "rows=1
cols=1
(0, 0, 3.5)
".

(** An entry of two tokens. *)
Definition two_token_input : text := txt "rows=1
cols=1
(0, 0)
".

(** A second line without an equals sign. *)
Definition no_equals_input : text := txt "rows=2
cols 2
".

(** A store with a 1x2 matrix at reference 2 and a 2x1 matrix at
    reference 6. *)
Definition example_store : Store.store :=
  <[2%positive := Store.Instance 1 1 2]>
    (<[1%positive := Store.Rows [(0, 3%positive)]]>
       (<[3%positive := Store.Cols [(0, 5); (1, 7)]]>
          (<[6%positive := Store.Instance 4 2 1]>
             (<[4%positive := Store.Rows [(1, 5%positive)]]>
                (<[5%positive := Store.Cols [(0, 2)]]> ∅))))).

Definition example_left : SparseMatrix := mkSparseMatrix [(0, [(0, 5); (1, 7)])] 1 2.
Definition example_right : SparseMatrix := mkSparseMatrix [(1, [(0, 2)])] 2 1.

(** ** Further notions used in the statements *)

(** No row of the matrix is an empty dictionary. *)
Definition no_empty_row (M : SparseMatrix) : Prop :=
  forall row cols, In (row, cols) (matrix M) -> cols <> [].

(** No dictionary holds a key twice and no row is empty. *)
Definition canonical (M : SparseMatrix) : Prop := matrix_wf M /\ no_empty_row M.

(** The table with one row per index below [nr], each with one entry per
    index below [nc], in increasing order; no row at all when there is no
    column. *)
Definition dense_table (f : Z -> Z -> Z) (nr nc : Z) : dict (dict Z) :=
  if 0 <? nc then map (fun r => (r, map (fun c => (c, f r c)) (range nc))) (range nr)
  else [].

(** The positions at which [multiply] stores a sum. *)
Definition product_positions (a b : SparseMatrix) : list (Z * Z) :=
  List.filter (fun '(row, col) => dict_contains (dict_get (matrix a) row []) col)
         (list_prod (dict_keys (matrix a)) (dict_keys (matrix b))).

(** The rows of the instance are distinct objects. *)
Definition distinct_rows (h : Store.store) (r : Store.loc) : Prop :=
  exists m d, Store.rows_of h r = Some (m, d) /\ List.NoDup (map snd d).

(** ** The command-line driver

    The block run when the file is executed as a program: it loads two
    fixed files, asks for an operation and for an output path on standard
    input, and saves the result. Standard input is the list of the lines
    still to be read, standard output the list of the strings written. *)

(** How the run ends. *)
Inductive ending : Type :=
| Finished
| Raised (e : exn)
| RaisedNameError
    (** [result] is used although no branch has assigned it *)
| RaisedEOFError
    (** [input()] with nothing left to read *)
| RaisedOSError.
    (** [open(output_file, 'w')] fails: no such directory, an empty path,
        a directory, no permission *)

Definition sample_1 : string := "./easy_sample_01_3.txt".
Definition sample_2 : string := "./easy_sample_03_1.txt".

(** What is printed before the first question, and the question. *)
Definition menu : list string :=
  ["Choose a matrix operation:
"; "1. Add Matrices
"; "2. Subtract Matrices
"; "3. Multiply Matrices
"; "Enter your choice (1/2/3): "].

(** The branches on [choice]: the exception raised, or else the value of
    [result], if assigned, and the line printed. *)
Definition select (choice : Z) (matrix1 matrix2 : SparseMatrix)
  : result (option SparseMatrix * string) :=
  if choice =? 1 then
    inr (Some (add matrix1 matrix2), "Matrices added successfully!
")
  else if choice =? 2 then
    inr (Some (subtract matrix1 matrix2), "Matrices subtracted successfully!
")
  else if choice =? 3 then
    match multiply matrix1 matrix2 with
    | inl e => inl e
    | inr R => inr (Some R, "Matrices multiplied successfully!
")
    end
  else inr (None, "Invalid choice. Please enter 1, 2, or 3.
").

(** The two matrices are built by [SparseMatrix(matrix_file=...)] on
    [sample_1] and [sample_2]; neither path is empty, so the constructor
    loads the file. *)
Definition main {S : Type} (os : file_system S) (s : S) (stdin : list string)
  : list string * S * ending :=
  match load_file os s sample_1 with
  | inl e => ([], s, Raised e)
  | inr matrix1 =>
      match load_file os s sample_2 with
      | inl e => ([], s, Raised e)
      | inr matrix2 =>
          match stdin with
          | [] => (menu, s, RaisedEOFError)
          | answer :: stdin' =>
              match int_of (txt answer) with
              | inl e => (menu, s, Raised e)
              | inr choice =>
                  match select choice matrix1 matrix2 with
                  | inl e => (menu, s, Raised e)
                  | inr (result, message) =>
                      let out :=
                        menu ++ [message;
                                 "Enter the output file path to save the result: "] in
                      match stdin' with
                      | [] => (out, s, RaisedEOFError)
                      | output_file :: _ =>
                          match result with
                          | None => (out, s, RaisedNameError)
                          | Some R =>
                              match save_to_file R os s output_file with
                              | None => (out, s, RaisedOSError)
                              | Some s' =>
                                  (out ++ ["Result saved to " +:+ output_file +:+ ".
"],
                                   s', Finished)
                              end
                          end
                      end
                  end
              end
          end
      end
  end.

(** An example of a file system: files in a single directory, found under
    the exact path they were written under; every path can be opened for
    writing but the empty one, and what is written is added at the end of
    the file. *)
Definition flat_files : file_system (gmap string text) :=
  {| read_text := fun s path => s !! path;
     open_write := fun s path =>
       if String.eqb path "" then None else Some (<[path := []]> s);
     write := fun s path t => <[path := default [] (s !! path) ++ t]> s |}.

(** A state with the two files the driver loads. *)
Definition driver_fs : gmap string text :=
  <[sample_1 := row_1x2]> (<[sample_2 := unit_2x2]> ∅).

Definition driver_matrix1 : SparseMatrix := mkSparseMatrix [(0, [(0, 1)])] 1 2.
Definition driver_matrix2 : SparseMatrix := mkSparseMatrix [(0, [(1, 1)])] 2 2.

(** ** Values that are not integers

    [set_element] stores the value it is given, whatever it is, and
    [save_to_file] writes it as [str] gives it. Besides integers the
    values meant are floats: IEEE 754 double-precision numbers, here
    the primitive floats. *)

Inductive value : Type :=
| Int (z : Z)
| Float (x : float).

(** *** [str(x)] for a float

    [float.__repr__]: the shortest run of decimal digits that is read back
    as the same float (of several, the nearest to it), laid out with a
    decimal point, or with an exponent when the first digit stands more
    than sixteen places before the point or more than four after it. The
    comparisons are exact, on fractions of integers. *)

(** [num / den], with [0 < den]. *)
Record fraction : Type := mkFraction { num : Z; den : Z }.

Definition frac_le (a b : fraction) : bool := num a * den b <=? num b * den a.
Definition frac_lt (a b : fraction) : bool := num a * den b <? num b * den a.
Definition frac_div (a b : fraction) : fraction :=
  {| num := num a * den b; den := den a * num b |}.
Definition frac_floor (a : fraction) : Z := num a / den a.

(** [m * base ^ e] *)
Definition scaled (m base e : Z) : fraction :=
  if 0 <=? e then {| num := m * base ^ e; den := 1 |}
  else {| num := m; den := base ^ (- e) |}.

(** The [p] with [10 ^ p <= m * 2 ^ e < 10 ^ (p + 1)]: a lower estimate
    from the binary logarithm, then raised as far as it goes. *)
Fixpoint raise_log10 (fuel : nat) (x : fraction) (p : Z) : Z :=
  match fuel with
  | O => p
  | S fuel' =>
      if frac_le (scaled 1 10 (p + 1)) x then raise_log10 fuel' x (p + 1) else p
  end.

Definition floor_log10 (m e : Z) : Z :=
  raise_log10 4 (scaled m 2 e) ((Z.log2 m + e) * 30103 / 100000 - 1).

(** Whether a decimal is read as the float [m * 2 ^ e] ([m] of 53 bits, or
    less at the least exponent): whether it lies between the midpoints to
    the two neighbouring floats, which are themselves read as that float
    when [m] is even. The neighbour below a power of two is half as far. *)
Definition reads_as (m e : Z) (decimal : fraction) : bool :=
  let below := if (m =? 2 ^ 52) && (-1074 <? e) then 1 else 2 in
  let lower := scaled (4 * m - below) 2 (e - 2) in
  let upper := scaled (4 * m + 2) 2 (e - 2) in
  if Z.even m then frac_le lower decimal && frac_le decimal upper
  else frac_lt lower decimal && frac_lt decimal upper.

(** The multiple of [10 ^ k] that is read as the float, if there is one:
    the one next below the float or the one next above, the nearer of the
    two when both are. *)
Definition nearest_multiple (m e k : Z) : option Z :=
  let d := frac_floor (frac_div (scaled m 2 e) (scaled 1 10 k)) in
  let low := reads_as m e (scaled d 10 k) in
  let high := reads_as m e (scaled (d + 1) 10 k) in
  let twice := scaled (2 * m) 2 e in
  let sum := scaled (2 * d + 1) 10 k in
  if low && high then
    if frac_lt twice sum then Some d
    else if frac_lt sum twice then Some (d + 1)
    else Some (if Z.even d then d else d + 1)
  else if low then Some d
  else if high then Some (d + 1)
  else None.

(** One more digit at each step, from a single one. *)
Fixpoint shortest_digits (fuel : nat) (m e k : Z) : Z * Z :=
  match fuel with
  | O => (frac_floor (frac_div (scaled m 2 e) (scaled 1 10 k)), k)
  | S fuel' =>
      match nearest_multiple m e k with
      | Some d => (d, k)
      | None => shortest_digits fuel' m e (k - 1)
      end
  end.

Fixpoint drop_zeros (fuel : nat) (d k : Z) : Z * Z :=
  match fuel with
  | O => (d, k)
  | S fuel' =>
      if (0 <? d) && (d mod 10 =? 0) then drop_zeros fuel' (d / 10) (k + 1)
      else (d, k)
  end.

Definition zeros (n : Z) : text := repeat "0"%char (Z.to_nat n).

(** The exponent: a sign and at least two digits. *)
Definition exponent_text (x : Z) : text :=
  (if x <? 0 then "-"%char else "+"%char)
  :: (if Z.abs x <? 10 then ["0"%char] else []) ++ str_int (Z.abs x).

(** The digits with the decimal point [point] places after the first. *)
Definition layout (digits : text) (point : Z) : text :=
  let n := Z.of_nat (length digits) in
  if (point <=? -4) || (16 <? point) then
    firstn 1 digits
    ++ (if 1 <? n then "."%char :: skipn 1 digits else [])
    ++ "e"%char :: exponent_text (point - 1)
  else if point <=? 0 then txt "0." ++ zeros (- point) ++ digits
  else if n <=? point then digits ++ zeros (point - n) ++ txt ".0"
  else firstn (Z.to_nat point) digits ++ "."%char :: skipn (Z.to_nat point) digits.

Definition sign_text (negative : bool) : text :=
  if negative then ["-"%char] else [].

Definition str_float (x : float) : text :=
  match Prim2SF x with
  | S754_nan => txt "nan"
  | S754_infinity s => sign_text s ++ txt "inf"
  | S754_zero s => sign_text s ++ txt "0.0"
  | S754_finite s m e =>
      let '(d, k) := shortest_digits 17 (Z.pos m) e (floor_log10 (Z.pos m) e) in
      let '(d, k) := drop_zeros 17 d k in
      let digits := str_int d in
      sign_text s ++ layout digits (Z.of_nat (length digits) + k)
  end.

(** [str(value)], which is what [f"{value}"] writes. *)
Definition str (v : value) : text :=
  match v with
  | Int z => str_int z
  | Float x => str_float x
  end.

(** *** Matrices of such values

    The class again, for what a caller does with values of either kind
    before the matrix is saved: the same code, read with [value] for the
    type of what is stored. *)

Module Numeric.

Record SparseMatrix : Type := mkSparseMatrix {
  matrix : dict (dict value);
  numRows : Z;
  numCols : Z
}.

(** [SparseMatrix(numRows=r, numCols=c)] *)
Definition new_matrix (r c : Z) : SparseMatrix :=
  {| matrix := []; numRows := r; numCols := c |}.

Definition get_element (self : SparseMatrix) (row col : Z) : value :=
  dict_get (dict_get (matrix self) row []) col (Int 0).

Definition set_element (self : SparseMatrix) (row col : Z) (v : value) : SparseMatrix :=
  let m :=
    if dict_contains (matrix self) row then matrix self
    else dict_setitem (matrix self) row [] in
  {| matrix := dict_setitem m row (dict_setitem (dict_get m row []) col v);
     numRows := numRows self;
     numCols := numCols self |}.

(** The text that [save_to_file] writes. *)
Definition entry_line (row col : Z) (v : value) : text :=
  txt "(" ++ str_int row ++ txt ", " ++ str_int col ++ txt ", "
  ++ str v ++ txt ")" ++ [newline].

Definition serialize (self : SparseMatrix) : text :=
  txt "rows=" ++ str_int (numRows self) ++ [newline]
  ++ txt "cols=" ++ str_int (numCols self) ++ [newline]
  ++ flat_map
       (fun '(row, cols) =>
          flat_map (fun '(col, v) => entry_line row col v) cols)
       (matrix self).

(** No dictionary of the matrix holds a key twice. *)
Definition matrix_wf (M : SparseMatrix) : Prop :=
  dict_wf (matrix M) /\ forall row cols, In (row, cols) (matrix M) -> dict_wf cols.

End Numeric.

(** A matrix of integers among these. *)
Definition integer_valued (M : SparseMatrix) : Numeric.SparseMatrix :=
  {| Numeric.matrix :=
       map (fun '(row, cols) => (row, map (fun '(col, z) => (col, Int z)) cols))
           (matrix M);
     Numeric.numRows := numRows M;
     Numeric.numCols := numCols M |}.

(** The matrix with one row and one column that holds one half. *)
Definition half_matrix : Numeric.SparseMatrix :=
  Numeric.set_element (Numeric.new_matrix 1 1) 0 0 (Float 0.5%float).

(* ===================================================================== *)
(** * Part II: properties *)
(* ===================================================================== *)

(** ** Dictionaries *)

Section DictFacts.
Context {V : Type}.
Implicit Types (d : dict V) (k : Z) (v : V).

Lemma dict_lookup_setitem_eq d k v :
  dict_lookup (dict_setitem d k v) k = Some v.
Proof.
  induction d as [|[k' v'] d IH]; simpl.
  - now rewrite Z.eqb_refl.
  - destruct (k =? k') eqn:E; simpl; rewrite E; auto.
Qed.

Lemma dict_lookup_setitem_ne d k k' v :
  k <> k' -> dict_lookup (dict_setitem d k v) k' = dict_lookup d k'.
Proof.
  intros Hne. induction d as [|[k0 v0] d IH]; simpl.
  - destruct (k' =? k) eqn:E; auto. apply Z.eqb_eq in E. congruence.
  - destruct (k =? k0) eqn:E; simpl.
    + apply Z.eqb_eq in E. subst k0.
      destruct (k' =? k) eqn:E'; auto. apply Z.eqb_eq in E'. congruence.
    + now rewrite IH.
Qed.

Lemma dict_contains_setitem_eq d k v :
  dict_contains (dict_setitem d k v) k = true.
Proof. unfold dict_contains. now rewrite dict_lookup_setitem_eq. Qed.

Lemma dict_get_setitem_eq d k v default :
  dict_get (dict_setitem d k v) k default = v.
Proof. unfold dict_get. now rewrite dict_lookup_setitem_eq. Qed.

Lemma dict_get_setitem_ne d k k' v default :
  k <> k' -> dict_get (dict_setitem d k v) k' default = dict_get d k' default.
Proof. intros. unfold dict_get. now rewrite dict_lookup_setitem_ne. Qed.

Lemma dict_lookup_In d k v : dict_lookup d k = Some v -> In (k, v) d.
Proof.
  induction d as [|[k' v'] d IH]; simpl; [discriminate|].
  destruct (k =? k') eqn:E.
  - apply Z.eqb_eq in E. intros [= ->]. subst. now left.
  - intros H. right. auto.
Qed.

Lemma dict_lookup_None d k : dict_lookup d k = None <-> ~ In k (dict_keys d).
Proof.
  induction d as [|[k' v'] d IH]; simpl.
  - tauto.
  - destruct (k =? k') eqn:E.
    + apply Z.eqb_eq in E. subst. split; [discriminate|]. intros H. exfalso. auto.
    + apply Z.eqb_neq in E. rewrite IH. split.
      * intros H [H1|H1]; [congruence|auto].
      * intros H H1. apply H. now right.
Qed.

Lemma dict_contains_keys d k : dict_contains d k = true <-> In k (dict_keys d).
Proof.
  unfold dict_contains. destruct (dict_lookup d k) eqn:E.
  - split; [intros _|auto].
    apply dict_lookup_In in E. apply (in_map fst) in E. exact E.
  - apply dict_lookup_None in E. split; [discriminate|tauto].
Qed.

Lemma dict_wf_lookup d k v : dict_wf d -> In (k, v) d -> dict_lookup d k = Some v.
Proof.
  unfold dict_wf. induction d as [|[k' v'] d IH]; simpl; [tauto|].
  intros Hnd [H|H].
  - injection H as -> ->. now rewrite Z.eqb_refl.
  - apply List.NoDup_cons_iff in Hnd as [Hnot Hnd].
    destruct (k =? k') eqn:E; [|auto].
    apply Z.eqb_eq in E. subst k'. exfalso. apply Hnot.
    apply (in_map fst) in H. exact H.
Qed.

Lemma dict_keys_setitem d k v :
  dict_keys (dict_setitem d k v) =
  if dict_contains d k then dict_keys d else dict_keys d ++ [k].
Proof.
  unfold dict_contains. induction d as [|[k' v'] d IH]; simpl; [reflexivity|].
  destruct (k =? k') eqn:E; simpl; [reflexivity|].
  rewrite IH. now destruct (dict_lookup d k).
Qed.

Lemma dict_setitem_In d k v k' v' :
  In (k', v') (dict_setitem d k v) -> (k' = k /\ v' = v) \/ In (k', v') d.
Proof.
  induction d as [|[k0 v0] d IH]; simpl.
  - intros [[= <- <-]|[]]. now left.
  - destruct (k =? k0) eqn:E; simpl.
    + apply Z.eqb_eq in E. subst k0. intros [[= <- <-]|H]; auto.
    + intros [H|H]; auto. apply IH in H. tauto.
Qed.

Lemma dict_wf_setitem d k v : dict_wf d -> dict_wf (dict_setitem d k v).
Proof.
  unfold dict_wf. intros Hnd. rewrite dict_keys_setitem.
  destruct (dict_contains d k) eqn:E; [exact Hnd|].
  assert (Hnot : ~ In k (dict_keys d)).
  { intros H. apply dict_contains_keys in H. congruence. }
  apply List.NoDup_app; repeat split; auto.
  - constructor; [simpl; tauto|constructor].
  - intros x Hx [<-|[]]. auto.
Qed.
End DictFacts.

(** ** [get_element] and [set_element] *)

(** [set_element] and the loader's [store_entry] are the same update, which
    walks the rows once. *)
Lemma store_entry_unfold (m : dict (dict Z)) row col value :
  store_entry m row col value =
  match m with
  | [] => [(row, [(col, value)])]
  | (k, cols) :: m' =>
      if row =? k then (k, dict_setitem cols col value) :: m'
      else (k, cols) :: store_entry m' row col value
  end.
Proof.
  unfold store_entry, dict_contains, dict_get.
  destruct m as [|[k cols] m']; simpl.
  - now rewrite Z.eqb_refl.
  - destruct (row =? k) eqn:E; simpl; rewrite ?E; [reflexivity|].
    destruct (dict_lookup m' row) eqn:E'; simpl; rewrite ?E, ?E'; reflexivity.
Qed.

Lemma set_element_store self row col value :
  set_element self row col value =
  {| matrix := store_entry (matrix self) row col value;
     numRows := numRows self; numCols := numCols self |}.
Proof. reflexivity. Qed.

Lemma store_entry_lookup_eq (m : dict (dict Z)) row col value :
  dict_lookup (store_entry m row col value) row =
  Some (dict_setitem (dict_get m row []) col value).
Proof.
  induction m as [|[k cols] m IH]; rewrite store_entry_unfold; unfold dict_get; simpl.
  - now rewrite Z.eqb_refl.
  - destruct (row =? k) eqn:E; simpl; rewrite E; [reflexivity|].
    rewrite IH. reflexivity.
Qed.

Lemma store_entry_lookup_ne (m : dict (dict Z)) row col value row' :
  row <> row' ->
  dict_lookup (store_entry m row col value) row' = dict_lookup m row'.
Proof.
  intros Hne.
  induction m as [|[k cols] m IH]; rewrite store_entry_unfold; simpl.
  - destruct (row' =? row) eqn:E; auto. apply Z.eqb_eq in E. congruence.
  - destruct (row =? k) eqn:E; simpl.
    + apply Z.eqb_eq in E. subst k.
      destruct (row' =? row) eqn:E'; auto. apply Z.eqb_eq in E'. congruence.
    + now rewrite IH.
Qed.

Lemma get_set_same self row col value :
  get_element (set_element self row col value) row col = value.
Proof.
  rewrite set_element_store. unfold get_element. simpl.
  unfold dict_get at 2. rewrite store_entry_lookup_eq.
  apply dict_get_setitem_eq.
Qed.

Lemma get_set_other self row col value row' col' :
  (row, col) <> (row', col') ->
  get_element (set_element self row col value) row' col' = get_element self row' col'.
Proof.
  intros Hne. rewrite set_element_store. unfold get_element. simpl.
  destruct (Z.eq_dec row row') as [<-|Hr].
  - unfold dict_get at 2. rewrite store_entry_lookup_eq.
    apply dict_get_setitem_ne. congruence.
  - unfold dict_get at 2 4. now rewrite store_entry_lookup_ne.
Qed.

Lemma has_entry_set_same self row col value :
  has_entry (set_element self row col value) row col = true.
Proof.
  rewrite set_element_store. unfold has_entry. simpl.
  rewrite store_entry_lookup_eq. apply dict_contains_setitem_eq.
Qed.

Lemma has_entry_set_mono self row col value row' col' :
  has_entry self row' col' = true ->
  has_entry (set_element self row col value) row' col' = true.
Proof.
  rewrite set_element_store. unfold has_entry. simpl.
  destruct (Z.eq_dec row row') as [<-|Hr].
  - rewrite store_entry_lookup_eq. unfold dict_get.
    destruct (dict_lookup (matrix self) row) as [cols|]; [|discriminate].
    intros H. apply dict_contains_keys. rewrite dict_keys_setitem.
    apply dict_contains_keys in H.
    destruct (dict_contains cols col); [exact H|]. apply in_or_app. now left.
  - now rewrite store_entry_lookup_ne.
Qed.

Lemma stored_keys_store_entry (m : dict (dict Z)) row col value r c nr nc :
  In (r, c) (stored_keys (mkSparseMatrix (store_entry m row col value) nr nc)) ->
  (r, c) = (row, col) \/ In (r, c) (stored_keys (mkSparseMatrix m nr nc)).
Proof.
  unfold stored_keys. simpl.
  induction m as [|[k cols] m IH]; rewrite store_entry_unfold; simpl.
  - intros [H|[]]. now left.
  - destruct (row =? k) eqn:E; simpl; rewrite !in_app_iff.
    + apply Z.eqb_eq in E. subst k. intros [H|H]; [|tauto].
      apply in_map_iff in H as (c0 & [= <- <-] & Hc).
      rewrite dict_keys_setitem in Hc.
      destruct (dict_contains cols col).
      * right. left. apply in_map_iff. eauto.
      * apply in_app_iff in Hc as [Hc|[<-|[]]]; [|now left].
        right. left. apply in_map_iff. eauto.
    + intros [H|H]; [tauto|]. apply IH in H. tauto.
Qed.

Lemma stored_keys_set_element self row col value r c :
  In (r, c) (stored_keys (set_element self row col value)) ->
  (r, c) = (row, col) \/ In (r, c) (stored_keys self).
Proof.
  rewrite set_element_store. destruct self as [m nr nc]. simpl.
  apply stored_keys_store_entry.
Qed.

(** C9. Reading a position right after writing it gives the value written,
    whatever the matrix, the position and the value; the value 0 is no
    exception: it is kept as a stored entry, the key is not removed. *)
Theorem set_then_get (M : SparseMatrix) (r c v : Z) :
  get_element (set_element M r c v) r c = v /\
  has_entry (set_element M r c v) r c = true /\
  In (r, c) (stored_keys (set_element M r c 0)).
Proof.
  split; [apply get_set_same|]. split; [apply has_entry_set_same|].
  pose proof (has_entry_set_same M r c 0) as H.
  unfold has_entry in H. unfold stored_keys.
  destruct (dict_lookup (matrix (set_element M r c 0)) r) as [cols|] eqn:E;
    [|discriminate].
  apply in_flat_map. exists (r, cols). split.
  - now apply dict_lookup_In.
  - apply in_map. now apply dict_contains_keys.
Qed.

(** ** Loops *)

Lemma range_In (n k : Z) : In k (range n) <-> 0 <= k < n.
Proof.
  unfold range. rewrite in_map_iff. split.
  - intros (i & <- & Hi). apply in_seq in Hi. lia.
  - intros Hk. exists (Z.to_nat k). split; [lia|]. apply in_seq. lia.
Qed.

(** Two nested loops visit the pairs of [list_prod] in order. *)
Lemma nested_loops {S A B : Type} (body : S -> A -> B -> S) (xs : list A) (ys : list B) :
  forall s,
    fold_left (fun s x => fold_left (fun s y => body s x y) ys s) xs s =
    fold_left (fun s '(x, y) => body s x y) (list_prod xs ys) s.
Proof.
  induction xs as [|x xs IH]; intros s; simpl; [reflexivity|].
  rewrite fold_left_app, IH. f_equal.
  clear. revert s. induction ys as [|y ys IH]; intros s; simpl; auto.
Qed.

Lemma fill_dims f ps : forall M,
  numRows (fill f ps M) = numRows M /\ numCols (fill f ps M) = numCols M.
Proof.
  unfold fill. induction ps as [|[r c] ps IH]; intros M; simpl; [auto|].
  destruct (IH (set_element M r c (f r c))) as [-> ->]. auto.
Qed.

Lemma fill_get f ps : forall M r c,
  get_element (fill f ps M) r c =
  if existsb (fun '(r', c') => (r' =? r) && (c' =? c)) ps then f r c
  else get_element M r c.
Proof.
  unfold fill. induction ps as [|[r0 c0] ps IH]; intros M r c; simpl; [reflexivity|].
  rewrite IH.
  destruct (existsb _ ps); [now rewrite orb_true_r|]. rewrite orb_false_r.
  destruct ((r0 =? r) && (c0 =? c)) eqn:E.
  - apply andb_true_iff in E as [->%Z.eqb_eq ->%Z.eqb_eq]. apply get_set_same.
  - apply get_set_other. intros [= -> ->]. now rewrite !Z.eqb_refl in E.
Qed.

Lemma fill_get_visited f ps M r c :
  In (r, c) ps -> get_element (fill f ps M) r c = f r c.
Proof.
  intros Hin. rewrite fill_get.
  replace (existsb _ ps) with true; [reflexivity|].
  symmetry. apply existsb_exists. exists (r, c). split; [exact Hin|].
  now rewrite !Z.eqb_refl.
Qed.

Lemma fill_has_entry_mono f ps : forall M r c,
  has_entry M r c = true -> has_entry (fill f ps M) r c = true.
Proof.
  unfold fill. induction ps as [|[r0 c0] ps IH]; intros M r c H; simpl; [exact H|].
  apply IH. now apply has_entry_set_mono.
Qed.

Lemma fill_has_entry_visited f ps : forall M r c,
  In (r, c) ps -> has_entry (fill f ps M) r c = true.
Proof.
  unfold fill. induction ps as [|[r0 c0] ps IH]; intros M r c H; simpl in *;
    [contradiction|].
  destruct H as [H|H].
  - injection H as -> ->. apply (fill_has_entry_mono f ps).
    apply has_entry_set_same.
  - now apply IH.
Qed.

Lemma fill_stored_keys f ps : forall M r c,
  In (r, c) (stored_keys (fill f ps M)) -> In (r, c) ps \/ In (r, c) (stored_keys M).
Proof.
  unfold fill. induction ps as [|[r0 c0] ps IH]; intros M r c H; simpl in *; [auto|].
  apply IH in H as [H|H]; [tauto|].
  apply stored_keys_set_element in H as [H|H]; [|tauto].
  left. left. congruence.
Qed.

(** ** [add] and [subtract] *)

Lemma elementwise_fill op a b :
  elementwise op a b =
  fill (fun r c => op (get_element a r c) (get_element b r c))
       (list_prod (range (numRows a)) (range (numCols a)))
       (new_matrix (numRows a) (numCols a)).
Proof. unfold elementwise, fill. now rewrite nested_loops. Qed.

Lemma grid_In (nr nc r c : Z) :
  In (r, c) (list_prod (range nr) (range nc)) <-> 0 <= r < nr /\ 0 <= c < nc.
Proof. now rewrite in_prod_iff, !range_In. Qed.

Lemma elementwise_spec op a b :
  numRows (elementwise op a b) = numRows a /\
  numCols (elementwise op a b) = numCols a /\
  (forall row col,
      0 <= row < numRows a -> 0 <= col < numCols a ->
      get_element (elementwise op a b) row col =
        op (get_element a row col) (get_element b row col) /\
      has_entry (elementwise op a b) row col = true) /\
  (forall row col,
      In (row, col) (stored_keys (elementwise op a b)) ->
      0 <= row < numRows a /\ 0 <= col < numCols a).
Proof.
  rewrite elementwise_fill.
  set (f := fun r c => op (get_element a r c) (get_element b r c)).
  set (ps := list_prod _ _).
  destruct (fill_dims f ps (new_matrix (numRows a) (numCols a))) as [Hr Hc].
  split; [exact Hr|]. split; [exact Hc|]. split.
  - intros row col Hrow Hcol. split.
    + apply (fill_get_visited f). now apply grid_In.
    + apply fill_has_entry_visited. now apply grid_In.
  - intros row col H. apply fill_stored_keys in H as [H|[]].
    now apply grid_In in H.
Qed.

(** C5. The sum of two matrices has the dimensions of the first operand;
    at every position of that grid it holds the sum of the two elements
    read with [get_element], and every position of the grid is a stored
    entry of the result, also where the sum is zero. *)
Theorem add_is_dense_sum (a b : SparseMatrix) :
  numRows (add a b) = numRows a /\
  numCols (add a b) = numCols a /\
  forall row col,
    0 <= row < numRows a -> 0 <= col < numCols a ->
    get_element (add a b) row col = get_element a row col + get_element b row col /\
    has_entry (add a b) row col = true.
Proof.
  destruct (elementwise_spec Z.add a b) as (Hr & Hc & Hget & _).
  unfold add. auto.
Qed.

Lemma add_is_dense_sum_witness :
  get_element (add add_witness_a add_witness_b) 0 1 = 0 /\
  has_entry (add add_witness_a add_witness_b) 0 1 = true.
Proof.
  destruct (add_is_dense_sum add_witness_a add_witness_b) as (_ & _ & H).
  apply (H 0 1); simpl; lia.
Defined.

Lemma keys_in_bounds_spec M :
  keys_in_bounds M = true <->
  forall r c, In (r, c) (stored_keys M) -> 0 <= r < numRows M /\ 0 <= c < numCols M.
Proof.
  unfold keys_in_bounds. rewrite forallb_forall. split.
  - intros H r c Hin. specialize (H _ Hin). simpl in H. lia.
  - intros H [r c] Hin. specialize (H _ _ Hin). lia.
Qed.

(** The results of [add] and [subtract] keep their keys inside their
    dimensions, whatever the operands. *)
Lemma add_keys_in_bounds a b : keys_in_bounds (add a b) = true.
Proof.
  apply keys_in_bounds_spec. intros r c Hin.
  destruct (elementwise_spec Z.add a b) as (Hr & Hc & _ & Hk).
  unfold add in *. rewrite Hr, Hc. auto.
Qed.

Lemma subtract_keys_in_bounds a b : keys_in_bounds (subtract a b) = true.
Proof.
  apply keys_in_bounds_spec. intros r c Hin.
  destruct (elementwise_spec Z.sub a b) as (Hr & Hc & _ & Hk).
  unfold subtract in *. rewrite Hr, Hc. auto.
Qed.

Lemma subtract_is_dense_difference (a b : SparseMatrix) :
  numRows (subtract a b) = numRows a /\
  numCols (subtract a b) = numCols a /\
  forall row col,
    0 <= row < numRows a -> 0 <= col < numCols a ->
    get_element (subtract a b) row col = get_element a row col - get_element b row col /\
    has_entry (subtract a b) row col = true.
Proof.
  destruct (elementwise_spec Z.sub a b) as (Hr & Hc & Hget & _).
  unfold subtract. auto.
Qed.

(** ** [multiply] *)

(** C1. On a 1x2 matrix with a 1 at (0, 0) and a 2x2 matrix with a 1 at
    (0, 1), whose inner dimensions agree, the product computed by [multiply]
    reads 0 at (0, 1) although the dot product of row 0 and column 1 is 1:
    the loop takes the row keys of the second operand for column indices and
    skips every column that is not a key of the current row of the first. *)
Theorem multiply_misses_dot_product :
  exists a b R,
    parse row_1x2 = inr a /\ parse unit_2x2 = inr b /\
    numCols a = numRows b /\
    multiply a b = inr R /\
    0 <= 0 < numRows R /\ 0 <= 1 < numCols R /\
    get_element R 0 1 = 0 /\
    dot a b 0 1 = 1.
Proof.
  eexists _, _, _.
  split; [vm_compute; reflexivity|].
  split; [vm_compute; reflexivity|].
  split; [reflexivity|].
  split; [vm_compute; reflexivity|].
  vm_compute. repeat split; congruence.
Qed.

(** C2. On a 1x3 matrix with an entry at (0, 2) and a 3x1 matrix with an
    entry at (2, 0), both with all keys inside their dimensions and with
    agreeing inner dimensions, [multiply] returns a 1x1 matrix that stores
    the key (0, 2), outside its single column. *)
Theorem multiply_key_out_of_bounds :
  exists a b R,
    parse row_1x3 = inr a /\ parse column_3x1 = inr b /\
    keys_in_bounds a = true /\ keys_in_bounds b = true /\
    numCols a = numRows b /\
    multiply a b = inr R /\
    numRows R = 1 /\ numCols R = 1 /\
    stored_keys R = [(0, 2)] /\
    keys_in_bounds R = false.
Proof.
  eexists _, _, _.
  split; [vm_compute; reflexivity|].
  split; [vm_compute; reflexivity|].
  repeat split; vm_compute; reflexivity.
Qed.

(** C4. When the number of columns of the first operand differs from the
    number of rows of the second, [multiply] raises the [ValueError] about
    incompatible sizes and returns no matrix. *)
Theorem multiply_dimension_mismatch (A B : SparseMatrix) :
  numCols A <> numRows B ->
  multiply A B = inl IncompatibleSizes /\
  is_ValueError IncompatibleSizes = true /\
  forall R, multiply A B <> inr R.
Proof.
  intros Hne. unfold multiply.
  apply Z.eqb_neq in Hne. rewrite Hne. simpl.
  repeat split; congruence.
Qed.

Lemma multiply_dimension_mismatch_witness :
  multiply (new_matrix 2 3) (new_matrix 2 2) = inl IncompatibleSizes /\
  is_ValueError IncompatibleSizes = true /\
  forall R, multiply (new_matrix 2 3) (new_matrix 2 2) <> inr R.
Proof.
  apply multiply_dimension_mismatch. simpl. lia.
Defined.

(** ** Integers and their decimal text *)

Lemma code_ascii_of_N (n : N) : (n < 256)%N -> code (ascii_of_N n) = Z.of_N n.
Proof. intros H. unfold code. now rewrite N_ascii_embedding. Qed.

Lemma code_digit_char d : 0 <= d < 10 -> code (digit_char d) = 48 + d.
Proof. intros H. unfold digit_char. rewrite code_ascii_of_N; lia. Qed.

Lemma digit_char_is_digit d : 0 <= d < 10 -> is_digit (digit_char d) = true.
Proof. intros H. unfold is_digit. rewrite code_digit_char by lia. lia. Qed.

Lemma digit_value_digit_char d : 0 <= d < 10 -> digit_value (digit_char d) = d.
Proof. intros H. unfold digit_value. rewrite code_digit_char by lia. lia. Qed.

Lemma digits_of_spec (fuel : nat) : forall n acc,
  (1 <= fuel)%nat -> 0 <= n < 2 ^ Z.of_nat fuel ->
  exists ds,
    digits_of fuel n acc = ds ++ acc /\
    forallb is_digit ds = true /\ ds <> [] /\
    fold_left digit_step ds 0 = n.
Proof.
  induction fuel as [|fuel IH]; intros n acc Hfuel Hn; [lia|].
  simpl digits_of.
  assert (Hd : 0 <= n mod 10 < 10) by (apply Z.mod_pos_bound; lia).
  destruct (n <? 10) eqn:E.
  - exists [digit_char (n mod 10)]. simpl.
    rewrite digit_char_is_digit by lia. repeat split; [discriminate|].
    unfold digit_step. rewrite digit_value_digit_char by lia.
    rewrite Z.mod_small; lia.
  - apply Z.ltb_ge in E.
    assert (Hq : 1 <= n / 10) by (apply Z.div_le_lower_bound; lia).
    assert (Hq' : n / 10 < 2 ^ Z.of_nat fuel).
    { apply Z.div_lt_upper_bound; [lia|].
      replace (Z.of_nat (S fuel)) with (Z.succ (Z.of_nat fuel)) in Hn by lia.
      rewrite Z.pow_succ_r in Hn by lia. lia. }
    assert (Hfuel' : (1 <= fuel)%nat).
    { destruct fuel; [simpl in Hq'; lia|lia]. }
    destruct (IH (n / 10) (digit_char (n mod 10) :: acc) Hfuel' ltac:(lia))
      as (ds & Heq & Hall & Hne & Hval).
    exists (ds ++ [digit_char (n mod 10)]). rewrite Heq.
    rewrite <- app_assoc. simpl. split; [reflexivity|].
    rewrite forallb_app, Hall. simpl. rewrite digit_char_is_digit by lia.
    repeat split.
    + intros H. now apply app_eq_nil in H as [_ H].
    + rewrite fold_left_app, Hval. simpl. unfold digit_step.
      rewrite digit_value_digit_char by lia.
      rewrite (Z.div_mod n 10) at 3 by lia. lia.
Qed.

Lemma str_nat_spec n :
  0 <= n ->
  forallb is_digit (str_nat n) = true /\ str_nat n <> [] /\
  fold_left digit_step (str_nat n) 0 = n.
Proof.
  intros Hn. unfold str_nat.
  destruct (digits_of_spec (S (Z.to_nat (Z.log2 n))) n []) as (ds & Heq & H);
    [lia| |].
  - split; [lia|]. rewrite Nat2Z.inj_succ, Z2Nat.id by apply Z.log2_nonneg.
    destruct (Z.eq_dec n 0) as [->|Hn0]; [simpl; lia|].
    apply Z.log2_spec. lia.
  - rewrite Heq, app_nil_r. exact H.
Qed.

Lemma scan_digits_run ds : forall rest acc k,
  forallb is_digit ds = true ->
  scan_digits (ds ++ rest) false acc k =
  scan_digits rest false (fold_left digit_step ds acc) (length ds + k).
Proof.
  induction ds as [|d ds IH]; intros rest acc k Hall; simpl; [reflexivity|].
  simpl in Hall. apply andb_true_iff in Hall as [Hd Hall].
  rewrite Hd, IH by exact Hall. f_equal. lia.
Qed.

Lemma scan_digits_stop rest acc k :
  ends_number rest -> scan_digits rest false acc k = Some (acc, k, rest).
Proof.
  destruct rest as [|c rest]; simpl; [reflexivity|].
  now intros [-> ->].
Qed.

Lemma drop_while_all p pre s :
  forallb p pre = true -> drop_while p (pre ++ s) = drop_while p s.
Proof.
  induction pre as [|c pre IH]; simpl; [reflexivity|].
  intros H. apply andb_true_iff in H as [-> H]. auto.
Qed.

Lemma drop_while_all_nil p s : forallb p s = true -> drop_while p s = [].
Proof.
  intros H. rewrite <- (app_nil_r s). rewrite drop_while_all by exact H.
  reflexivity.
Qed.

Lemma drop_while_stop p c s : p c = false -> drop_while p (c :: s) = c :: s.
Proof. intros H. simpl. now rewrite H. Qed.

Lemma is_digit_facts c :
  is_digit c = true ->
  Py_ISSPACE c = false /\ Py_UNICODE_ISSPACE c = false /\ (code c <? 128) = true /\
  Ascii.eqb c "_"%char = false /\ Ascii.eqb c "+"%char = false /\
  Ascii.eqb c "-"%char = false /\ Ascii.eqb c ","%char = false /\
  Ascii.eqb c "="%char = false /\ Ascii.eqb c newline = false /\
  Ascii.eqb c carriage_return = false.
Proof.
  unfold is_digit, Py_UNICODE_ISSPACE, Py_ISSPACE. intros H.
  assert (Hne : forall c', code c' < 48 \/ 57 < code c' -> Ascii.eqb c c' = false).
  { intros c' Hc'. apply Ascii.eqb_neq. intros ->. lia. }
  repeat split; try lia; apply Hne; vm_compute; intuition congruence.
Qed.

Lemma Py_ISSPACE_facts c :
  Py_ISSPACE c = true ->
  is_digit c = false /\ (code c <? 128) = true /\ Py_UNICODE_ISSPACE c = true /\
  Ascii.eqb c "_"%char = false.
Proof.
  unfold is_digit, Py_UNICODE_ISSPACE, Py_ISSPACE. intros H.
  repeat split; try lia.
  apply Ascii.eqb_neq. intros ->. vm_compute in H. discriminate.
Qed.

Lemma spaces_end_number post : forallb Py_ISSPACE post = true -> ends_number post.
Proof.
  destruct post as [|c post]; simpl; [auto|].
  intros H. apply andb_true_iff in H as [H _].
  now apply Py_ISSPACE_facts in H.
Qed.

(** After the sign, a run of digits followed by white space is read as its
    value. *)
Lemma scan_number ds post :
  forallb is_digit ds = true -> ds <> [] -> forallb Py_ISSPACE post = true ->
  starts_with_underscore (ds ++ post) = false /\
  exists k,
    scan_digits (ds ++ post) false 0 0 = Some (fold_left digit_step ds 0, S k, post).
Proof.
  intros Hds Hne Hpost. split.
  - destruct ds as [|d ds]; [congruence|]. simpl in *.
    apply andb_true_iff in Hds as [Hd _]. now apply is_digit_facts in Hd.
  - rewrite scan_digits_run by exact Hds.
    rewrite scan_digits_stop by now apply spaces_end_number.
    destruct ds as [|d ds]; [congruence|]. simpl length. eauto.
Qed.

Lemma py_int_unsigned ds post sign :
  forallb is_digit ds = true -> ds <> [] -> forallb Py_ISSPACE post = true ->
  (if starts_with_underscore (ds ++ post) then None
   else match scan_digits (ds ++ post) false 0 0 with
        | None => None
        | Some (v, digits, rest) =>
            match digits with
            | O => None
            | S _ =>
                match drop_while Py_ISSPACE rest with
                | [] => Some (sign * v)
                | _ :: _ => None
                end
            end
        end) = Some (sign * fold_left digit_step ds 0).
Proof.
  intros Hds Hne Hpost.
  destruct (scan_number ds post Hds Hne Hpost) as [-> [k ->]].
  now rewrite drop_while_all_nil.
Qed.

Lemma str_int_ascii n : forallb (fun c => code c <? 128) (str_int n) = true.
Proof.
  assert (H : forall m, 0 <= m -> forallb (fun c => code c <? 128) (str_nat m) = true).
  { intros m Hm. destruct (str_nat_spec m Hm) as (Hall & _).
    apply forallb_forall. intros c Hc.
    rewrite forallb_forall in Hall. specialize (Hall c Hc).
    now apply is_digit_facts in Hall. }
  unfold str_int. destruct (n <? 0) eqn:E.
  - simpl. apply H. lia.
  - apply H. lia.
Qed.

(** [int(str(n))] is [n], also with white space around the digits. *)
Lemma py_int_str_int pre post n :
  forallb Py_ISSPACE pre = true -> forallb Py_ISSPACE post = true ->
  py_int (pre ++ str_int n ++ post) = Some n.
Proof.
  intros Hpre Hpost. unfold py_int, to_ascii_buffer.
  assert (Hascii : forall s, forallb Py_ISSPACE s = true ->
                             forallb (fun c => code c <? 128) s = true).
  { intros s Hs. apply forallb_forall. intros c Hc.
    rewrite forallb_forall in Hs. specialize (Hs c Hc).
    now apply Py_ISSPACE_facts in Hs. }
  rewrite !forallb_app, (Hascii pre), (Hascii post), str_int_ascii by assumption.
  simpl. rewrite drop_while_all by exact Hpre.
  unfold str_int. destruct (n <? 0) eqn:E.
  - destruct (str_nat_spec (- n)) as (Hds & Hne & Hval); [lia|].
    simpl. rewrite py_int_unsigned by assumption. rewrite Hval. f_equal. lia.
  - destruct (str_nat_spec n) as (Hds & Hne & Hval); [lia|].
    destruct (str_nat n) as [|d ds] eqn:Es; [congruence|].
    assert (Hd : is_digit d = true).
    { simpl in Hds. now apply andb_true_iff in Hds as [Hd _]. }
    destruct (is_digit_facts d Hd) as (Hsp & _ & _ & _ & Hplus & Hminus & _).
    rewrite <- app_comm_cons. rewrite drop_while_stop by exact Hsp.
    unfold read_sign. rewrite Hplus, Hminus.
    rewrite app_comm_cons, py_int_unsigned by assumption.
    rewrite Hval. f_equal. lia.
Qed.

(** ** Lines, fields and trimming *)

Lemma universal_newlines_id s :
  ~ In carriage_return s -> universal_newlines s = s.
Proof.
  induction s as [|c s IH]; simpl; [reflexivity|].
  intros Hnot. destruct (Ascii.eqb c carriage_return) eqn:E.
  - apply Ascii.eqb_eq in E. tauto.
  - rewrite IH; tauto.
Qed.

Lemma lines_of_line l rest :
  ~ In newline l -> lines_of (l ++ newline :: rest) = (l ++ [newline]) :: lines_of rest.
Proof.
  induction l as [|c l IH]; simpl.
  - intros _. reflexivity.
  - intros Hnot. destruct (Ascii.eqb c newline) eqn:E.
    + apply Ascii.eqb_eq in E. tauto.
    + rewrite IH by tauto. reflexivity.
Qed.

Lemma lines_of_concat bodies :
  Forall (fun b => ~ In newline b) bodies ->
  lines_of (concat (map (fun b => b ++ [newline]) bodies)) =
  map (fun b => b ++ [newline]) bodies.
Proof.
  induction 1 as [|b bodies Hb _ IH]; simpl; [reflexivity|].
  rewrite <- app_assoc. simpl. rewrite lines_of_line by exact Hb.
  now rewrite IH.
Qed.

Lemma split_absent sep s : ~ In sep s -> split sep s = [s].
Proof.
  induction s as [|c s IH]; simpl; [reflexivity|].
  intros Hnot. destruct (Ascii.eqb c sep) eqn:E.
  - apply Ascii.eqb_eq in E. tauto.
  - rewrite IH; tauto.
Qed.

Lemma split_first sep a b :
  ~ In sep a -> split sep (a ++ sep :: b) = a :: split sep b.
Proof.
  induction a as [|c a IH]; simpl.
  - intros _. now rewrite Ascii.eqb_refl.
  - intros Hnot. destruct (Ascii.eqb c sep) eqn:E.
    + apply Ascii.eqb_eq in E. tauto.
    + rewrite IH; tauto.
Qed.

Lemma split_nonempty sep s : split sep s <> [].
Proof.
  destruct s as [|c s]; simpl; [discriminate|].
  destruct (Ascii.eqb c sep); [discriminate|].
  destruct (split sep s); discriminate.
Qed.

Lemma rstrip_line s c' :
  Py_UNICODE_ISSPACE c' = false -> rstrip (s ++ [c'; newline]) = s ++ [c'].
Proof.
  intros Hc'. unfold rstrip. rewrite rev_app_distr.
  change (rev [c'; newline]) with [newline; c'].
  change ([newline; c'] ++ rev s) with (newline :: c' :: rev s).
  change (drop_while Py_UNICODE_ISSPACE (newline :: c' :: rev s))
    with (drop_while Py_UNICODE_ISSPACE (c' :: rev s)).
  rewrite drop_while_stop by exact Hc'.
  simpl. now rewrite rev_involutive.
Qed.

Lemma strip_line c body c' :
  Py_UNICODE_ISSPACE c = false -> Py_UNICODE_ISSPACE c' = false ->
  strip (c :: body ++ [c'; newline]) = c :: body ++ [c'].
Proof.
  intros Hc Hc'. unfold strip, lstrip.
  rewrite drop_while_stop by exact Hc.
  now rewrite app_comm_cons, rstrip_line.
Qed.

Lemma slice_1_m1_delimited c body c' : slice_1_m1 (c :: body ++ [c']) = body.
Proof. unfold slice_1_m1. simpl. apply removelast_last. Qed.

(** The characters of the decimal text of an integer. *)
Lemma str_int_chars n c :
  In c (str_int n) -> is_digit c = true \/ c = "-"%char.
Proof.
  assert (H : forall m, 0 <= m -> In c (str_nat m) -> is_digit c = true).
  { intros m Hm Hc. destruct (str_nat_spec m Hm) as (Hall & _).
    rewrite forallb_forall in Hall. auto. }
  unfold str_int. destruct (n <? 0) eqn:E.
  - intros [<-|Hc]; [now right|]. left. apply (H (- n)); [lia|exact Hc].
  - intros Hc. left. apply (H n); [lia|exact Hc].
Qed.

Lemma str_int_lacks n c :
  is_digit c = false -> c <> "-"%char -> ~ In c (str_int n).
Proof.
  intros Hd Hm Hin. apply str_int_chars in Hin as [H|H]; congruence.
Qed.

Ltac lacks :=
  repeat (rewrite in_app_iff || simpl In);
  repeat match goal with
         | |- ~ _ => intros ?
         | H : _ \/ _ |- _ => destruct H
         | H : In _ (str_int _) |- _ =>
             apply str_int_lacks in H; [contradiction|reflexivity|discriminate]
         | H : False |- _ => contradiction
         | H : _ = _ |- _ => discriminate H
         end.

Ltac reassoc := repeat (progress simpl || rewrite <- app_assoc).

(** ** Reading back what [save_to_file] wrote *)

Lemma parse_entry_entry_line row col value :
  strip (entry_line row col value) <> [] /\
  parse_entry (entry_line row col value) = inr (row, col, value).
Proof.
  unfold parse_entry, entry_line. simpl txt. simpl app.
  set (body := str_int row ++ ","%char :: " "%char :: str_int col
               ++ ","%char :: " "%char :: str_int value).
  replace (str_int row ++ ","%char :: " "%char :: str_int col
           ++ ","%char :: " "%char :: str_int value ++ [")"%char; newline])
    with (body ++ [")"%char; newline])
    by (unfold body; reassoc; reflexivity).
  rewrite strip_line by reflexivity. split; [discriminate|].
  rewrite slice_1_m1_delimited. unfold body.
  rewrite split_first by lacks.
  change (" "%char :: str_int col ++ ","%char :: " "%char :: str_int value)
    with ((" "%char :: str_int col) ++ ","%char :: " "%char :: str_int value).
  rewrite split_first by lacks.
  rewrite split_absent by lacks.
  unfold index, int_of. simpl.
  pose proof (py_int_str_int [] [] row eq_refl eq_refl) as Hr.
  pose proof (py_int_str_int [" "%char] [] col eq_refl eq_refl) as Hc.
  pose proof (py_int_str_int [" "%char] [] value eq_refl eq_refl) as Hv.
  simpl in Hr, Hc, Hv. rewrite app_nil_r in Hr, Hc, Hv.
  rewrite Hr. simpl. rewrite Hc. simpl. rewrite Hv. reflexivity.
Qed.

Lemma header_value_line key n :
  ~ In "="%char key ->
  header_value (key ++ "="%char :: str_int n ++ [newline]) = inr n.
Proof.
  intros Hkey. unfold header_value.
  rewrite split_first by exact Hkey.
  rewrite split_absent by lacks.
  unfold index, int_of. simpl.
  pose proof (py_int_str_int [] [newline] n eq_refl eq_refl) as H.
  simpl in H. rewrite H. reflexivity.
Qed.

Lemma entries_text m :
  flat_map (fun '(row, cols) =>
              flat_map (fun '(col, value) => entry_line row col value) cols) m =
  flat_map line_of_entry (entries_of m).
Proof.
  unfold entries_of.
  induction m as [|[row cols] m IH]; simpl; [reflexivity|].
  rewrite flat_map_app, IH. f_equal.
  clear. induction cols as [|[col value] cols IH]; simpl; [reflexivity|].
  now rewrite IH.
Qed.

Lemma entry_line_chars row col value c :
  In c (entry_line row col value) ->
  is_digit c = true \/ In c (txt "(, )-") \/ c = newline.
Proof.
  unfold entry_line. rewrite !in_app_iff. simpl.
  intros H. repeat destruct H as [H|H];
    try (apply str_int_chars in H as [H|H]); subst; tauto.
Qed.

Lemma serialize_chars M c :
  In c (serialize M) ->
  is_digit c = true \/ In c (txt "rows=cl(, )-") \/ c = newline.
Proof.
  unfold serialize. rewrite entries_text, !in_app_iff, in_flat_map. simpl.
  intros H. repeat destruct H as [H|H];
    try (apply str_int_chars in H as [H|H]); subst; try tauto.
  destruct H as ([[row col] value] & _ & H).
  apply entry_line_chars in H. simpl in H. tauto.
Qed.

Lemma serialize_no_carriage_return M : ~ In carriage_return (serialize M).
Proof.
  intros H. apply serialize_chars in H. simpl in H.
  repeat destruct H as [H|H]; try discriminate H; try contradiction.
Qed.

Lemma entry_line_body row col value :
  entry_line row col value = entry_body row col value ++ [newline].
Proof. unfold entry_line, entry_body. reassoc. reflexivity. Qed.

Lemma entry_body_one_line row col value : ~ In newline (entry_body row col value).
Proof. unfold entry_body. lacks. Qed.

Lemma lines_of_entries es :
  lines_of (flat_map line_of_entry es) = map line_of_entry es.
Proof.
  induction es as [|[[row col] value] es IH]; [reflexivity|].
  cbn [flat_map map line_of_entry].
  rewrite entry_line_body, <- app_assoc.
  change ([newline] ++ flat_map line_of_entry es)
    with (newline :: flat_map line_of_entry es).
  rewrite lines_of_line by apply entry_body_one_line. now rewrite IH.
Qed.

Lemma serialize_lines M :
  lines_of (universal_newlines (serialize M)) =
  (txt "rows=" ++ str_int (numRows M) ++ [newline])
  :: (txt "cols=" ++ str_int (numCols M) ++ [newline])
  :: map line_of_entry (entries_of (matrix M)).
Proof.
  rewrite universal_newlines_id by apply serialize_no_carriage_return.
  unfold serialize. rewrite entries_text.
  replace (txt "rows=" ++ str_int (numRows M) ++ [newline] ++
           txt "cols=" ++ str_int (numCols M) ++ [newline] ++
           flat_map line_of_entry (entries_of (matrix M)))
    with ((txt "rows=" ++ str_int (numRows M)) ++ newline ::
          (txt "cols=" ++ str_int (numCols M)) ++ newline ::
          flat_map line_of_entry (entries_of (matrix M)))
    by (reassoc; reflexivity).
  rewrite lines_of_line by lacks. rewrite lines_of_line by lacks.
  rewrite lines_of_entries. reassoc. reflexivity.
Qed.

Lemma load_entries_written es : forall m,
  load_entries (map line_of_entry es) m = inr (store_all es m).
Proof.
  unfold store_all.
  induction es as [|[[row col] value] es IH]; intros m; simpl; [reflexivity|].
  destruct (parse_entry_entry_line row col value) as [Hstrip ->].
  destruct (strip (entry_line row col value)); [congruence|]. apply IH.
Qed.

(** What is read at a position after a run of assignments, when the run
    assigns to that position at most one value. *)
Lemma store_all_get es : forall m nr nc r c,
  (forall v v', In (r, c, v) es -> In (r, c, v') es -> v = v') ->
  get_element (mkSparseMatrix (store_all es m) nr nc) r c =
  match find (fun '(r', c', _) => (r' =? r) && (c' =? c)) es with
  | Some (_, _, v) => v
  | None => get_element (mkSparseMatrix m nr nc) r c
  end.
Proof.
  unfold store_all.
  induction es as [|[[r0 c0] v0] es IH]; intros m nr nc r c Huniq; simpl;
    [reflexivity|].
  rewrite IH by (intros; eapply Huniq; right; eassumption).
  change (mkSparseMatrix (store_entry m r0 c0 v0) nr nc)
    with (set_element (mkSparseMatrix m nr nc) r0 c0 v0).
  destruct ((r0 =? r) && (c0 =? c)) eqn:E.
  - apply andb_true_iff in E as [->%Z.eqb_eq ->%Z.eqb_eq].
    destruct (find _ es) as [[[r1 c1] v1]|] eqn:F.
    + apply find_some in F as [Hin Hm].
      apply andb_true_iff in Hm as [->%Z.eqb_eq ->%Z.eqb_eq].
      apply Huniq; [now right|now left].
    + apply get_set_same.
  - destruct (find _ es) as [[[r1 c1] v1]|]; [reflexivity|].
    apply get_set_other. intros [= -> ->]. now rewrite !Z.eqb_refl in E.
Qed.

Lemma entries_of_In m r c v :
  In (r, c, v) (entries_of m) <-> exists cols, In (r, cols) m /\ In (c, v) cols.
Proof.
  unfold entries_of. rewrite in_flat_map. split.
  - intros ([row cols] & Hin & H). apply in_map_iff in H as ([col value] & [= -> -> ->] & H).
    eauto.
  - intros (cols & Hin & H). exists (r, cols). split; [exact Hin|].
    apply in_map_iff. exists (c, v). auto.
Qed.

Lemma entries_of_get M r c v :
  matrix_wf M -> In (r, c, v) (entries_of (matrix M)) -> get_element M r c = v.
Proof.
  intros [Hwf Hrows] Hin. apply entries_of_In in Hin as (cols & Hr & Hc).
  unfold get_element, dict_get.
  rewrite (dict_wf_lookup _ _ _ Hwf Hr).
  now rewrite (dict_wf_lookup _ _ _ (Hrows _ _ Hr) Hc).
Qed.

Lemma entries_of_absent M r c :
  (forall v, ~ In (r, c, v) (entries_of (matrix M))) -> get_element M r c = 0.
Proof.
  intros Hnone. unfold get_element, dict_get.
  destruct (dict_lookup (matrix M) r) as [cols|] eqn:Er; [|reflexivity].
  destruct (dict_lookup cols c) as [v|] eqn:Ec; [|reflexivity].
  exfalso. apply (Hnone v). apply entries_of_In. exists cols.
  split; now apply dict_lookup_In.
Qed.

Lemma store_all_entries M nr nc r c :
  matrix_wf M ->
  get_element (mkSparseMatrix (store_all (entries_of (matrix M)) []) nr nc) r c =
  get_element M r c.
Proof.
  intros Hwf. rewrite store_all_get.
  - destruct (find _ _) as [[[r1 c1] v1]|] eqn:F.
    + apply find_some in F as [Hin Hm].
      apply andb_true_iff in Hm as [->%Z.eqb_eq ->%Z.eqb_eq].
      symmetry. now apply entries_of_get.
    + symmetry. apply entries_of_absent. intros v Hin.
      apply (find_none _ _ F) in Hin. simpl in Hin. now rewrite !Z.eqb_refl in Hin.
  - intros v v' Hv Hv'.
    rewrite <- (entries_of_get M r c v Hwf Hv). now apply entries_of_get.
Qed.

Lemma header_rows n : header_value (txt "rows=" ++ str_int n ++ [newline]) = inr n.
Proof. apply (header_value_line (txt "rows")). simpl. intuition discriminate. Qed.

Lemma header_cols n : header_value (txt "cols=" ++ str_int n ++ [newline]) = inr n.
Proof. apply (header_value_line (txt "cols")). simpl. intuition discriminate. Qed.

(** C3, for matrices of integers. For a matrix [M] whose values are
    integers and in which no dictionary holds a key twice, the text written
    for [M] is read back as a matrix with the same number of rows, the same
    number of columns and the same element at every position, in particular
    at every position of the grid. *)
Theorem serialize_parse_roundtrip (M : SparseMatrix) :
  matrix_wf M ->
  exists M',
    parse (serialize M) = inr M' /\
    numRows M' = numRows M /\
    numCols M' = numCols M /\
    forall r c, get_element M' r c = get_element M r c.
Proof.
  intros Hwf.
  exists (mkSparseMatrix (store_all (entries_of (matrix M)) []) (numRows M) (numCols M)).
  split; [|split; [reflexivity|split; [reflexivity|]]].
  - unfold parse, load_matrix. rewrite serialize_lines.
    unfold load_lines. cbn [nth skipn].
    rewrite header_rows, header_cols.
    cbn [bind]. rewrite skipn_O, load_entries_written. reflexivity.
  - intros r c. now apply store_all_entries.
Qed.

Lemma roundtrip_example_wf : matrix_wf roundtrip_example.
Proof.
  split.
  - repeat constructor; simpl; intuition lia.
  - intros row cols [H|[H|[]]]; injection H as <- <-;
      repeat constructor; simpl; tauto.
Defined.

Lemma serialize_parse_roundtrip_witness :
  exists M',
    parse (serialize roundtrip_example) = inr M' /\
    numRows M' = 2 /\ numCols M' = 2 /\
    forall r c, get_element M' r c = get_element roundtrip_example r c.
Proof.
  apply (serialize_parse_roundtrip roundtrip_example). exact roundtrip_example_wf.
Defined.

(** [str] on some floats: a fraction, a whole number, the two layouts
    with an exponent, a number that is not a short decimal, the zeros and
    the values that are not numbers. *)
Lemma str_float_examples :
  map str_float
    [0.5%float; 100%float; 0x1.999999999999ap-4%float; 0x1.5555555555555p-2%float;
     0x1.1c37937e08p+53%float; 0x1.4f8b588e368f1p-17%float; (-0x1.8p+1)%float;
     0%float; (-0)%float; infinity; neg_infinity; nan]
  = map txt
      ["0.5"; "100.0"; "0.1"; "0.3333333333333333"; "1e+16"; "1e-05"; "-3.0";
       "0.0"; "-0.0"; "inf"; "-inf"; "nan"]%string.
Proof. vm_compute. reflexivity. Qed.

(** C3 as stated, without the restriction to integers, fails: a matrix
    that holds the float one half has no key twice, is written with the
    entry line [(0, 0, 0.5)], and that text is not read back as any matrix:
    the loader stops on the [ValueError] that [int] raises for [ 0.5]. *)
Lemma serialize_parse_fails_on_float :
  Numeric.matrix_wf half_matrix /\
  Numeric.serialize half_matrix = txt "rows=1
cols=1
(0, 0, 0.5)
" /\
  parse (Numeric.serialize half_matrix)
    = inl (WrongFormat (InvalidLiteral (txt " 0.5"))) /\
  ~ (exists M',
       parse (Numeric.serialize half_matrix) = inr M' /\
       numRows M' = Numeric.numRows half_matrix /\
       numCols M' = Numeric.numCols half_matrix /\
       forall r c,
         0 <= r < Numeric.numRows half_matrix ->
         0 <= c < Numeric.numCols half_matrix ->
         Int (get_element M' r c) = Numeric.get_element half_matrix r c).
Proof.
  assert (Hparse : parse (Numeric.serialize half_matrix)
                   = inl (WrongFormat (InvalidLiteral (txt " 0.5"))))
    by (vm_compute; reflexivity).
  split; [|split; [vm_compute; reflexivity|split; [exact Hparse|]]].
  - split.
    + repeat constructor. simpl. tauto.
    + intros row cols [H|[]]. injection H as <- <-.
      repeat constructor. simpl. tauto.
  - intros (M' & H & _). rewrite Hparse in H. discriminate.
Qed.

(** The matrices of integers are among those of integers and floats, and
    are written the same. *)
Lemma serialize_integer_valued (M : SparseMatrix) :
  Numeric.serialize (integer_valued M) = serialize M.
Proof.
  unfold Numeric.serialize, serialize, integer_valued.
  cbn [Numeric.matrix Numeric.numRows Numeric.numCols].
  repeat (apply (f_equal2 (@app ascii)); [reflexivity|]).
  induction (matrix M) as [|[row cols] m IH]; [reflexivity|].
  cbn [map flat_map]. rewrite IH. f_equal.
  induction cols as [|[col z] cols IHc]; [reflexivity|].
  cbn [map flat_map]. now rewrite IHc.
Qed.

Lemma get_element_integer_valued (M : SparseMatrix) (r c : Z) :
  Numeric.get_element (integer_valued M) r c = Int (get_element M r c).
Proof.
  unfold Numeric.get_element, get_element, integer_valued, dict_get. simpl.
  induction (matrix M) as [|[row cols] m IH]; simpl; [reflexivity|].
  destruct (r =? row); [|exact IH].
  induction cols as [|[col z] cols IHc]; simpl; [reflexivity|].
  destruct (c =? col); [reflexivity|exact IHc].
Qed.

(** What [save_to_file] writes, string after string, is the text
    [serialize]. *)
Lemma written_serialize (M : SparseMatrix) : concat (written M) = serialize M.
Proof.
  unfold written, serialize. cbn [concat]. rewrite <- !app_assoc.
  repeat (apply (f_equal2 (@app ascii)); [reflexivity|]).
  induction (matrix M) as [|[row cols] m IH]; [reflexivity|].
  cbn [flat_map]. rewrite concat_app, IH. f_equal.
  induction cols as [|[col value] cols IHc]; [reflexivity|].
  cbn [map flat_map concat]. now rewrite IHc.
Qed.


(** ** The matrices the program builds hold no key twice *)

Lemma store_entry_keys (m : dict (dict Z)) row col value :
  dict_keys (store_entry m row col value) =
  if dict_contains m row then dict_keys m else dict_keys m ++ [row].
Proof.
  unfold dict_contains.
  induction m as [|[k cols] m IH]; rewrite store_entry_unfold; simpl; [reflexivity|].
  destruct (row =? k); simpl; [reflexivity|].
  rewrite IH. now destruct (dict_lookup m row).
Qed.

Lemma store_entry_In (m : dict (dict Z)) row col value r cols :
  In (r, cols) (store_entry m row col value) ->
  In (r, cols) m \/
  exists old, (old = [] \/ In (r, old) m) /\ cols = dict_setitem old col value.
Proof.
  induction m as [|[k cols0] m IH]; rewrite store_entry_unfold; simpl.
  - intros [[= <- <-]|[]]. right. exists []. auto.
  - destruct (row =? k); simpl.
    + intros [[= <- <-]|H]; [|tauto]. right. exists cols0. auto.
    + intros [H|H]; [tauto|]. apply IH in H as [H|(old & [->|H] & ->)]; [tauto| |].
      * right. exists []. auto.
      * right. exists old. auto.
Qed.

Lemma set_element_wf M r c v : matrix_wf M -> matrix_wf (set_element M r c v).
Proof.
  intros [Hrows Hcols]. rewrite set_element_store. split; simpl.
  - unfold dict_wf. rewrite store_entry_keys.
    destruct (dict_contains (matrix M) r) eqn:E; [exact Hrows|].
    apply List.NoDup_app; repeat split; auto.
    + constructor; [simpl; tauto|constructor].
    + intros x Hx [<-|[]]. apply dict_contains_keys in Hx. congruence.
  - intros row cols H. apply store_entry_In in H as [H|(old & [->|H] & ->)].
    + eapply Hcols; eauto.
    + apply dict_wf_setitem. constructor.
    + apply dict_wf_setitem. eapply Hcols; eauto.
Qed.

Lemma new_matrix_wf r c : matrix_wf (new_matrix r c).
Proof. split; simpl; [constructor|tauto]. Qed.

Lemma fold_left_invariant {S A : Type} (P : S -> Prop) (f : S -> A -> S) (xs : list A) :
  (forall s x, P s -> P (f s x)) -> forall s, P s -> P (fold_left f xs s).
Proof. intros Hf. induction xs as [|x xs IH]; simpl; auto. Qed.

Lemma elementwise_wf op a b : matrix_wf (elementwise op a b).
Proof.
  unfold elementwise.
  apply fold_left_invariant; [|apply new_matrix_wf].
  intros M row HM. apply fold_left_invariant; [|exact HM].
  intros M' col HM'. now apply set_element_wf.
Qed.

Lemma multiply_wf a b R : multiply a b = inr R -> matrix_wf R.
Proof.
  unfold multiply. destruct (negb (numCols a =? numRows b)); [discriminate|].
  intros [= <-].
  apply fold_left_invariant; [|apply new_matrix_wf].
  intros M row HM. apply fold_left_invariant; [|exact HM].
  intros M' col HM'.
  destruct (dict_contains _ col); [now apply set_element_wf|exact HM'].
Qed.

Lemma load_entries_wf lines : forall m m' nr nc,
  load_entries lines m = inr m' ->
  matrix_wf (mkSparseMatrix m nr nc) -> matrix_wf (mkSparseMatrix m' nr nc).
Proof.
  induction lines as [|line lines IH]; simpl; intros m m' nr nc.
  - now intros [= <-].
  - destruct (strip line); [apply IH|].
    destruct (parse_entry line) as [e|[[row col] value]]; [discriminate|].
    intros H Hwf. apply (IH _ _ nr nc H).
    apply (set_element_wf (mkSparseMatrix m nr nc) row col value Hwf).
Qed.

Lemma parse_wf contents M : parse contents = inr M -> matrix_wf M.
Proof.
  unfold parse, load_matrix, load_lines, init_loaded.
  destruct (header_value _) as [e|rows]; simpl; [discriminate|].
  destruct (header_value _) as [e|cols]; simpl; [discriminate|].
  destruct (load_entries _ []) as [e|m] eqn:E; simpl; [discriminate|].
  intros [= <-]. apply (load_entries_wf _ [] m rows cols E).
  apply (new_matrix_wf rows cols).
Qed.

(** ** Inputs that the loader rejects, and inputs that it accepts *)

Lemma parse_entry_rejected line :
  rejected_entry line = true <-> exists e, parse_entry line = inl e.
Proof.
  unfold rejected_entry, parse_entry, entry_tokens, index, int_of, is_integer.
  destruct (split ","%char (slice_1_m1 (strip line))) as [|t0 [|t1 [|t2 rest]]];
    simpl.
  - split; [intros _; eauto|intros _; reflexivity].
  - destruct (py_int t0); simpl; (split; [intros _; eauto|intros _; reflexivity]).
  - destruct (py_int t0); simpl; [|split; [intros _; eauto|intros _; reflexivity]].
    destruct (py_int t1); simpl; (split; [intros _; eauto|intros _; reflexivity]).
  - destruct (py_int t0); simpl; [|split; [intros _; eauto|intros _; reflexivity]].
    destruct (py_int t1); simpl; [|split; [intros _; eauto|intros _; reflexivity]].
    destruct (py_int t2); simpl; [|split; [intros _; eauto|intros _; reflexivity]].
    split; [discriminate|]. intros [e H]. discriminate.
Qed.

Lemma load_entries_rejected lines : forall m line,
  In line lines -> strip line <> [] -> rejected_entry line = true ->
  exists e, load_entries lines m = inl e.
Proof.
  induction lines as [|l lines IH]; intros m line Hin Hstrip Hrej; [contradiction|].
  simpl. destruct Hin as [->|Hin].
  - destruct (strip line); [congruence|].
    apply parse_entry_rejected in Hrej as [e ->]. eauto.
  - destruct (strip l); [eauto|].
    destruct (parse_entry l) as [e|[[row col] value]]; eauto.
Qed.

Lemma parse_error_wrapped contents :
  (exists e, load_lines (input_lines contents) = inl e) ->
  exists e, parse contents = inl (WrongFormat e) /\
            is_ValueError (WrongFormat e) = true /\
            forall M, parse contents <> inr M.
Proof.
  intros [e He]. exists e. unfold parse, load_matrix.
  fold (input_lines contents). rewrite He. simpl. repeat split. discriminate.
Qed.

Lemma load_lines_rejected_entry lines line :
  In line (skipn 2 lines) -> strip line <> [] -> rejected_entry line = true ->
  exists e, load_lines lines = inl e.
Proof.
  intros Hin Hstrip Hrej. unfold load_lines.
  destruct (header_value (nth 0 lines [])) as [e|rows]; simpl; [eauto|].
  destruct (header_value (nth 1 lines [])) as [e|cols]; simpl; [eauto|].
  destruct (load_entries_rejected _ [] _ Hin Hstrip Hrej) as [e ->]. simpl. eauto.
Qed.

Lemma parse_rejected_entry_line contents line :
  In line (entry_lines contents) -> strip line <> [] -> rejected_entry line = true ->
  exists e,
    parse contents = inl (WrongFormat e) /\
    is_ValueError (WrongFormat e) = true /\
    forall M, parse contents <> inr M.
Proof.
  intros Hin Hstrip Hrej. apply parse_error_wrapped.
  now apply (load_lines_rejected_entry _ line).
Qed.

(** C6, counterexample. With well-formed headers, an entry line written
    between brackets instead of parentheses, an entry line of four tokens,
    and an entry line without its closing parenthesis are all accepted: the
    loader returns a matrix, in the last case with the value 5 where the
    line says 55. *)
Lemma parse_accepts_malformed_entries :
  (header_value (nth 0 (input_lines bracketed_input) []) = inr 1 /\
   header_value (nth 1 (input_lines bracketed_input) []) = inr 1 /\
   entry_lines bracketed_input = [txt "[0, 0, 5]" ++ [newline]] /\
   parse bracketed_input = inr (mkSparseMatrix [(0, [(0, 5)])] 1 1)) /\
  (header_value (nth 0 (input_lines four_token_input) []) = inr 1 /\
   header_value (nth 1 (input_lines four_token_input) []) = inr 1 /\
   entry_lines four_token_input = [txt "(0, 0, 5, 9)" ++ [newline]] /\
   length (entry_tokens (txt "(0, 0, 5, 9)" ++ [newline])) = 4%nat /\
   parse four_token_input = inr (mkSparseMatrix [(0, [(0, 5)])] 1 1)) /\
  (entry_lines unclosed_input = [txt "(0, 0, 55" ++ [newline]] /\
   parse unclosed_input = inr (mkSparseMatrix [(0, [(0, 5)])] 1 1)).
Proof. repeat split; vm_compute; reflexivity. Qed.

(** C6, amended. An input fails to load, with the [ValueError] about the
    format and without any matrix, as soon as one of its non-blank entry
    lines, once trimmed and without its first and last characters, has
    fewer than three comma-separated tokens or has a token among the first
    three that [int] does not accept. *)
Theorem parse_rejects_entry (contents line : text) :
  In line (entry_lines contents) ->
  strip line <> [] ->
  rejected_entry line = true ->
  exists e,
    parse contents = inl (WrongFormat e) /\
    is_ValueError (WrongFormat e) = true /\
    forall M, parse contents <> inr M.
Proof. apply parse_rejected_entry_line. Qed.

Lemma parse_rejects_entry_witness :
  exists e,
    parse two_token_input = inl (WrongFormat e) /\
    is_ValueError (WrongFormat e) = true /\
    forall M, parse two_token_input <> inr M.
Proof.
  apply (parse_rejects_entry two_token_input (txt "(0, 0)" ++ [newline])).
  - vm_compute. tauto.
  - vm_compute. discriminate.
  - vm_compute. reflexivity.
Defined.

Lemma header_value_no_equals line :
  ~ In "="%char line -> header_value line = inl IndexError.
Proof. intros H. unfold header_value. now rewrite split_absent. Qed.

Lemma header_value_not_integer line field :
  nth_error (split "="%char line) 1 = Some field -> py_int field = None ->
  header_value line = inl (InvalidLiteral field).
Proof.
  intros Hf Hint. unfold header_value, index, int_of. rewrite Hf. simpl.
  now rewrite Hint.
Qed.

(** C7, counterexample. A file whose second line is [size=2], which does
    not start with [cols=], is loaded: the matrix has two columns. *)
Lemma parse_accepts_other_key :
  starts_with (txt "cols=") (nth 1 (input_lines other_key_input) []) = false /\
  parse other_key_input = inr (mkSparseMatrix [(0, [(1, 4)])] 2 2).
Proof. split; vm_compute; reflexivity. Qed.

(** C7, amended. An input fails to load, with the [ValueError] about the
    format and without any matrix, when its second line has no equals sign,
    or when the text between the first equals sign of that line and the next
    one (or the end of the line) is not accepted by [int]. What stands
    before the equals sign is not looked at. *)
Theorem parse_rejects_second_line (contents : text) :
  (~ In "="%char (nth 1 (input_lines contents) []) \/
   exists field,
     nth_error (split "="%char (nth 1 (input_lines contents) [])) 1 = Some field /\
     py_int field = None) ->
  exists e,
    parse contents = inl (WrongFormat e) /\
    is_ValueError (WrongFormat e) = true /\
    forall M, parse contents <> inr M.
Proof.
  intros H. apply parse_error_wrapped. unfold load_lines.
  destruct (header_value (nth 0 (input_lines contents) [])) as [e|rows]; simpl;
    [eauto|].
  destruct H as [H|(field & Hf & Hint)].
  - rewrite header_value_no_equals by exact H. simpl. eauto.
  - rewrite (header_value_not_integer _ field) by assumption. simpl. eauto.
Qed.

Lemma parse_rejects_second_line_witness :
  exists e,
    parse no_equals_input = inl (WrongFormat e) /\
    is_ValueError (WrongFormat e) = true /\
    forall M, parse no_equals_input <> inr M.
Proof.
  apply (parse_rejects_second_line no_equals_input).
  left. vm_compute. intuition discriminate.
Defined.

Lemma scan_digits_chars s : forall prev_us acc k v digits rest,
  scan_digits s prev_us acc k = Some (v, digits, rest) ->
  exists run,
    s = run ++ rest /\
    forallb (fun c => is_digit c || Ascii.eqb c "_"%char) run = true.
Proof.
  induction s as [|c s IH]; intros prev_us acc k v digits rest; simpl.
  - destruct prev_us; [discriminate|]. intros [= <- <- <-]. now exists [].
  - destruct (is_digit c) eqn:Ed.
    + intros H. apply IH in H as (run & -> & Hrun).
      exists (c :: run). simpl. now rewrite Ed, Hrun.
    + destruct (Ascii.eqb c "_"%char) eqn:Eu.
      * destruct prev_us; [discriminate|].
        intros H. apply IH in H as (run & -> & Hrun).
        exists (c :: run). simpl. now rewrite Ed, Eu, Hrun.
      * destruct prev_us; [discriminate|]. intros [= <- <- <-]. now exists [].
Qed.

Lemma drop_while_split p s :
  exists pre, s = pre ++ drop_while p s /\ forallb p pre = true.
Proof.
  induction s as [|c s (pre & IH & Hpre)]; simpl; [now exists []|].
  destruct (p c) eqn:E.
  - exists (c :: pre). simpl. now rewrite E, Hpre, <- IH.
  - now exists [].
Qed.

(** Whatever [int] accepts is, once white space is made ASCII, made of
    characters of integers only. *)
Lemma py_int_buffer_chars s n :
  py_int s = Some n -> forallb integer_char (to_ascii_buffer s) = true.
Proof.
  unfold py_int.
  destruct (drop_while_split Py_ISSPACE (to_ascii_buffer s)) as (pre & Hs & Hpre).
  set (s1 := drop_while Py_ISSPACE (to_ascii_buffer s)) in *.
  rewrite Hs. clearbody s1. clear Hs.
  assert (Hsign : exists sg, s1 = sg ++ snd (read_sign s1) /\
                             forallb integer_char sg = true).
  { unfold read_sign. destruct s1 as [|c s1]; [now exists []|].
    destruct (Ascii.eqb c "+"%char) eqn:Ep.
    - exists [c]. simpl. unfold integer_char. rewrite Ep.
      now rewrite !orb_true_r.
    - destruct (Ascii.eqb c "-"%char) eqn:Em; [|now exists []].
      exists [c]. simpl. unfold integer_char. rewrite Em.
      now rewrite !orb_true_r. }
  destruct Hsign as (sg & Hs1 & Hsg).
  destruct (read_sign s1) as [sign s2]. simpl in Hs1. subst s1.
  destruct (starts_with_underscore s2); [discriminate|].
  destruct (scan_digits s2 false 0 0) as [[[v digits] rest]|] eqn:Escan;
    [|discriminate].
  destruct digits; [discriminate|].
  apply scan_digits_chars in Escan as (run & -> & Hrun).
  destruct (drop_while_split Py_ISSPACE rest) as (post & Hrest & Hpost).
  destruct (drop_while Py_ISSPACE rest); [|discriminate].
  intros _. rewrite app_nil_r in Hrest. subst rest.
  rewrite !forallb_app, Hsg. simpl.
  assert (Hsp : forall l, forallb Py_ISSPACE l = true -> forallb integer_char l = true).
  { intros l Hl. apply forallb_forall. intros c Hc.
    rewrite forallb_forall in Hl. unfold integer_char. now rewrite (Hl c Hc). }
  rewrite (Hsp pre), (Hsp post) by assumption. simpl. rewrite andb_true_r.
  apply forallb_forall. intros c Hc. rewrite forallb_forall in Hrun.
  specialize (Hrun c Hc). unfold integer_char.
  apply orb_true_iff in Hrun as [-> | ->]; now rewrite !orb_true_r.
Qed.

Lemma transform_chars s :
  forallb integer_char (transform_decimal_and_space s) = true ->
  forallb integer_char s = true.
Proof.
  induction s as [|c s IH]; simpl; [reflexivity|].
  destruct (code c <? 127) eqn:E; simpl.
  - intros H. apply andb_true_iff in H as [-> H]. auto.
  - destruct (Py_UNICODE_ISSPACE c) eqn:Esp; simpl; [|discriminate].
    intros H. rewrite IH by exact H. rewrite andb_true_r.
    unfold integer_char, Py_UNICODE_ISSPACE, Py_ISSPACE in *. lia.
Qed.

Lemma py_int_chars s n : py_int s = Some n -> forallb integer_char s = true.
Proof.
  intros H. apply py_int_buffer_chars in H. unfold to_ascii_buffer in H.
  destruct (forallb _ s); [exact H|]. now apply transform_chars.
Qed.

(** A string that holds a character of another kind, a decimal point or an
    exponent letter for instance, is not accepted. *)
Lemma py_int_rejects s c :
  In c s -> integer_char c = false -> py_int s = None.
Proof.
  intros Hin Hc. destruct (py_int s) as [n|] eqn:E; [|reflexivity].
  apply py_int_chars in E. rewrite forallb_forall in E.
  rewrite (E c Hin) in Hc. discriminate.
Qed.

Example py_int_fraction : py_int (txt "3.5") = None.
Proof. apply (py_int_rejects _ "."%char); [simpl; tauto|reflexivity]. Qed.

Example py_int_exponent : py_int (txt "1e5") = None.
Proof. apply (py_int_rejects _ "e"%char); [simpl; tauto|reflexivity]. Qed.

(** C10. The value of an entry goes through [int] like the two indices: an
    input fails to load, with the [ValueError] about the format and
    without any matrix, when the third token of one of its non-blank entry
    lines is not accepted by [int], as is the case of a literal with a
    fractional part. Every loaded value is therefore an integer. *)
Theorem parse_rejects_non_integer_value (contents line token : text) :
  In line (entry_lines contents) ->
  strip line <> [] ->
  nth_error (entry_tokens line) 2 = Some token ->
  py_int token = None ->
  exists e,
    parse contents = inl (WrongFormat e) /\
    is_ValueError (WrongFormat e) = true /\
    forall M, parse contents <> inr M.
Proof.
  intros Hin Hstrip Htok Hint.
  apply (parse_rejected_entry_line contents line Hin Hstrip).
  unfold rejected_entry.
  destruct (entry_tokens line) as [|t0 [|t1 [|t2 rest]]]; try reflexivity.
  simpl in Htok. injection Htok as ->. simpl.
  unfold is_integer at 3. rewrite Hint. simpl.
  now rewrite !andb_false_r.
Qed.

Lemma parse_rejects_non_integer_value_witness :
  exists e,
    parse fractional_input = inl (WrongFormat e) /\
    is_ValueError (WrongFormat e) = true /\
    forall M, parse fractional_input <> inr M.
Proof.
  apply (parse_rejects_non_integer_value
           fractional_input (txt "(0, 0, 3.5)" ++ [newline]) (txt " 3.5")).
  - vm_compute. tauto.
  - vm_compute. discriminate.
  - vm_compute. reflexivity.
  - vm_compute. reflexivity.
Defined.

(** ** The operations on the store *)

Section StoreFacts.
Implicit Types (h : Store.store) (l r m : Store.loc).

Lemma unchanged_refl h : Store.unchanged h h.
Proof. intros l _. reflexivity. Qed.

Lemma unchanged_dom h h' l : Store.unchanged h h' -> l ∈ dom h -> l ∈ dom h'.
Proof.
  intros Hun Hl. apply elem_of_dom. rewrite (Hun l Hl). now apply elem_of_dom.
Qed.

Lemma unchanged_insert h0 h l o :
  Store.unchanged h0 h -> l ∉ dom h0 -> Store.unchanged h0 (<[l := o]> h).
Proof.
  intros Hun Hl l' Hl'. rewrite lookup_insert_ne; [now apply Hun|].
  intros ->. contradiction.
Qed.

Lemma fresh_not_in h l o : h !! l = Some o -> l <> fresh (dom h).
Proof.
  intros H ->. apply (is_fresh (dom h)). apply elem_of_dom. eauto.
Qed.

Lemma contents_inv h r R :
  Store.contents h r = Some R ->
  exists m d,
    h !! r = Some (Store.Instance m (numRows R) (numCols R)) /\
    h !! m = Some (Store.Rows d) /\
    Store.read_rows h d = Some (matrix R).
Proof.
  unfold Store.contents, Store.rows_of, Store.numRows, Store.numCols.
  destruct (h !! r) as [[m nr nc| |]|] eqn:Er; try discriminate.
  destruct (h !! m) as [[|d|]|] eqn:Em; try discriminate. simpl.
  destruct (Store.read_rows h d) as [rs|] eqn:Erows; [|discriminate]. simpl.
  intros [= <-]. simpl. eauto.
Qed.

Lemma contents_intro h r m d nr nc rs :
  h !! r = Some (Store.Instance m nr nc) -> h !! m = Some (Store.Rows d) ->
  Store.read_rows h d = Some rs ->
  Store.contents h r = Some (mkSparseMatrix rs nr nc).
Proof.
  intros Er Em Erows. unfold Store.contents, Store.rows_of, Store.numRows, Store.numCols.
  rewrite Er, Em. simpl. rewrite Erows. reflexivity.
Qed.
End StoreFacts.

Section StoreRows.
Implicit Types (h : Store.store) (l r m : Store.loc) (d : dict Store.loc).

Lemma cols_at_Some h l cd : Store.cols_at h l = Some cd <-> h !! l = Some (Store.Cols cd).
Proof.
  unfold Store.cols_at. destruct (h !! l) as [[| |cd']|]; split; congruence.
Qed.

Lemma read_rows_lookup h d : forall rs row,
  Store.read_rows h d = Some rs ->
  match dict_lookup d row with
  | Some l => exists cd, Store.cols_at h l = Some cd /\ dict_lookup rs row = Some cd
  | None => dict_lookup rs row = None
  end.
Proof.
  induction d as [|[k l] d IH]; simpl; intros rs row.
  - intros [= <-]. reflexivity.
  - destruct (Store.cols_at h l) as [cd|] eqn:Ec; [|discriminate]. simpl.
    destruct (Store.read_rows h d) as [rs'|] eqn:Er; [|discriminate]. simpl.
    intros [= <-]. simpl. destruct (row =? k); [eauto|]. now apply IH.
Qed.

Lemma read_rows_ext h h' d :
  (forall l, In l (map snd d) -> h' !! l = h !! l) ->
  Store.read_rows h' d = Store.read_rows h d.
Proof.
  induction d as [|[k l] d IH]; simpl; intros Hagree; [reflexivity|].
  unfold Store.cols_at. rewrite (Hagree l) by now left.
  rewrite IH; [reflexivity|]. intros l' Hl'. apply Hagree. now right.
Qed.

Lemma read_rows_cols h d : forall rs l,
  Store.read_rows h d = Some rs -> In l (map snd d) ->
  exists cd, h !! l = Some (Store.Cols cd).
Proof.
  induction d as [|[k l0] d IH]; simpl; intros rs l; [tauto|].
  destruct (Store.cols_at h l0) as [cd|] eqn:Ec; [|discriminate]. simpl.
  destruct (Store.read_rows h d) as [rs'|] eqn:Er; [|discriminate]. simpl.
  intros _ [<-|Hin].
  - apply cols_at_Some in Ec. eauto.
  - eapply IH; eauto.
Qed.

Lemma read_rows_app h d1 d2 rs1 rs2 :
  Store.read_rows h d1 = Some rs1 -> Store.read_rows h d2 = Some rs2 ->
  Store.read_rows h (d1 ++ d2) = Some (rs1 ++ rs2).
Proof.
  revert rs1. induction d1 as [|[k l] d1 IH]; simpl; intros rs1.
  - intros [= <-]. auto.
  - destruct (Store.cols_at h l) as [cd|]; [|discriminate]. simpl.
    destruct (Store.read_rows h d1) as [rs'|]; [|discriminate]. simpl.
    intros [= <-] H2. now rewrite (IH rs' eq_refl H2).
Qed.

Lemma dict_setitem_absent {V} (d : dict V) k v :
  dict_lookup d k = None -> dict_setitem d k v = d ++ [(k, v)].
Proof.
  induction d as [|[k' v'] d IH]; simpl; [reflexivity|].
  destruct (k =? k'); [discriminate|]. intros H. now rewrite IH.
Qed.

Lemma store_entry_absent (rs : dict (dict Z)) row col v :
  dict_lookup rs row = None -> store_entry rs row col v = rs ++ [(row, [(col, v)])].
Proof.
  induction rs as [|[k cols] rs IH]; rewrite store_entry_unfold; simpl;
    [reflexivity|].
  destruct (row =? k); [discriminate|]. intros H. now rewrite IH.
Qed.

Lemma dict_lookup_snd {V} (d : dict V) k v : dict_lookup d k = Some v -> In v (map snd d).
Proof. intros H. apply dict_lookup_In in H. now apply (in_map snd) in H. Qed.

(** Assigning in the dictionary of an existing row. *)
Lemma read_rows_update h d : forall rs row l cd col v,
  Store.read_rows h d = Some rs ->
  dict_lookup d row = Some l ->
  List.NoDup (map snd d) ->
  Store.cols_at h l = Some cd ->
  Store.read_rows (<[l := Store.Cols (dict_setitem cd col v)]> h) d =
  Some (store_entry rs row col v).
Proof.
  induction d as [|[k l0] d IH]; simpl; intros rs row l cd col v; [discriminate|].
  destruct (Store.cols_at h l0) as [cd0|] eqn:Ec; [|discriminate]. simpl.
  destruct (Store.read_rows h d) as [rs'|] eqn:Er; [|discriminate]. simpl.
  intros [= <-] Hrow Hnd Hcd.
  apply List.NoDup_cons_iff in Hnd as [Hnot Hnd].
  rewrite store_entry_unfold. destruct (row =? k) eqn:E.
  - injection Hrow as ->. rewrite Hcd in Ec. injection Ec as ->.
    unfold Store.cols_at at 1. rewrite lookup_insert_eq. simpl.
    rewrite read_rows_ext with (h := h); [now rewrite Er|].
    intros l' Hl'. apply lookup_insert_ne. congruence.
  - assert (Hne : l <> l0).
    { intros ->. apply Hnot. eapply dict_lookup_snd; eauto. }
    unfold Store.cols_at at 1. rewrite lookup_insert_ne by exact Hne.
    fold (Store.cols_at h l0). rewrite Ec. simpl.
    rewrite (IH rs' row l cd col v eq_refl Hrow Hnd Hcd). reflexivity.
Qed.

Lemma get_element_contents h a A row col :
  Store.contents h a = Some A ->
  Store.get_element h a row col = Some (get_element A row col).
Proof.
  intros H. apply contents_inv in H as (m & d & Ha & Hm & Hrows).
  unfold Store.get_element, Store.rows_of. rewrite Ha, Hm. simpl.
  pose proof (read_rows_lookup h d _ row Hrows) as Hl.
  unfold get_element.
  destruct (dict_lookup d row) as [l|].
  - destruct Hl as (cd & -> & Hr). simpl. unfold dict_get at 3.
    now rewrite Hr.
  - unfold dict_get at 2. now rewrite Hl.
Qed.

Lemma contents_unchanged h0 h a A :
  Store.unchanged h0 h -> Store.contents h0 a = Some A -> Store.contents h a = Some A.
Proof.
  intros Hun H. apply contents_inv in H as (m & d & Ha & Hm & Hrows).
  destruct A as [rs nr nc]. simpl in *.
  apply (contents_intro h a m d); try (rewrite Hun; [assumption|apply elem_of_dom; eauto]).
  rewrite <- Hrows. apply read_rows_ext. intros l Hl.
  destruct (read_rows_cols h0 d rs l Hrows Hl) as [cd Hcd].
  apply Hun. apply elem_of_dom. eauto.
Qed.
End StoreRows.

Section StoreSetElement.
Implicit Types (h : Store.store) (l r m : Store.loc) (d : dict Store.loc).

Lemma in_dom_Some h l o : h !! l = Some o -> l ∈ dom h.
Proof. intros H. apply elem_of_dom. eauto. Qed.

Lemma unchanged_fresh h0 h : Store.unchanged h0 h -> fresh (dom h) ∉ dom h0.
Proof.
  intros Hun Hin. apply (is_fresh (dom h)). now apply (unchanged_dom h0 h).
Qed.

(** One assignment to a matrix made of new objects: the store-level
    [set_element] succeeds, touches no old object, and stands for the
    assignment on the matrix. *)
Lemma set_element_sim h0 h r R row col v :
  Store.unchanged h0 h -> Store.owned h0 h r -> Store.contents h r = Some R ->
  exists h',
    Store.set_element h r row col v = Some h' /\
    Store.unchanged h0 h' /\ Store.owned h0 h' r /\
    Store.contents h' r = Some (set_element R row col v).
Proof.
  intros Hun (m & d & nr & nc & Hr & Hm & Hr0 & Hm0 & Hd0 & Hnd) HR.
  apply contents_inv in HR as (m' & d' & Hr' & Hm' & Hrows).
  rewrite Hr in Hr'. injection Hr' as <- Hnr Hnc.
  rewrite Hm in Hm'. injection Hm' as <-.
  destruct R as [rs nr' nc']. simpl in *. subst nr' nc'.
  rewrite set_element_store. simpl.
  unfold Store.set_element, Store.rows_of. rewrite Hr, Hm. simpl.
  pose proof (read_rows_lookup h d rs row Hrows) as Hlook.
  destruct (dict_lookup d row) as [l|] eqn:El.
  - destruct Hlook as (cd & Hcd & Hrs). rewrite Hcd. simpl.
    assert (Hl : h !! l = Some (Store.Cols cd)) by now apply cols_at_Some.
    assert (Hlr : l <> r) by congruence.
    assert (Hlm : l <> m) by congruence.
    assert (Hl0 : l ∉ dom h0) by (apply Hd0; eapply dict_lookup_snd; eauto).
    eexists. split; [reflexivity|]. split; [|split].
    + now apply unchanged_insert.
    + exists m, d, nr, nc. rewrite !lookup_insert_ne by assumption. auto 10.
    + apply (contents_intro _ r m d); rewrite ?lookup_insert_ne by assumption;
        auto.
      now apply read_rows_update.
  - unfold Store.alloc. simpl.
    set (l := fresh (dom h)).
    assert (Hlr : l <> r) by (apply not_eq_sym; eapply fresh_not_in; eauto).
    assert (Hlm : l <> m) by (apply not_eq_sym; eapply fresh_not_in; eauto).
    assert (Hmr : m <> r) by congruence.
    assert (Hl0 : l ∉ dom h0) by now apply unchanged_fresh.
    assert (Hold : forall l', In l' (map snd d) -> l' <> l /\ l' <> m).
    { intros l' Hl'. destruct (read_rows_cols h d rs l' Hrows Hl') as [cd Hcd].
      split; [eapply fresh_not_in; eauto|congruence]. }
    unfold Store.cols_at.
    rewrite lookup_insert_ne, lookup_insert_eq by auto. simpl.
    rewrite dict_setitem_absent by exact El.
    eexists. split; [reflexivity|]. split; [|split].
    + now repeat apply unchanged_insert.
    + exists m, (d ++ [(row, l)]), nr, nc.
      rewrite (lookup_insert_ne _ l r), (lookup_insert_ne _ m r) by auto.
      rewrite (lookup_insert_ne _ l r) by auto.
      rewrite (lookup_insert_ne _ l m), lookup_insert_eq by auto.
      rewrite map_app. simpl. repeat split; auto.
      * intros l' Hl'. apply in_app_iff in Hl' as [Hl'|[<-|[]]]; auto.
      * apply List.NoDup_app; repeat split; auto.
        -- constructor; [simpl; tauto|constructor].
        -- intros l' Hl' [<-|[]]. now apply Hold in Hl'.
    + apply (contents_intro _ r m (d ++ [(row, l)])).
      * rewrite (lookup_insert_ne _ l r), (lookup_insert_ne _ m r) by auto.
        now rewrite (lookup_insert_ne _ l r) by auto.
      * now rewrite (lookup_insert_ne _ l m), lookup_insert_eq by auto.
      * rewrite store_entry_absent by exact Hlook.
        apply read_rows_app.
        -- rewrite <- Hrows. apply read_rows_ext. intros l' Hl'.
           apply Hold in Hl' as [H1 H2].
           now rewrite !lookup_insert_ne by auto.
        -- simpl. unfold Store.cols_at. now rewrite lookup_insert_eq.
Qed.
End StoreSetElement.

Section StoreLoops.
Implicit Types (h : Store.store) (l r m : Store.loc) (d : dict Store.loc).

(** A loop on the store that follows, step by step, a fold on the model. *)
Lemma for_each_sim {A S T : Type} (I : S -> T -> Prop)
    (body : S -> A -> option S) (step : T -> A -> T) (xs : list A) :
  (forall s t x, In x xs -> I s t -> exists s', body s x = Some s' /\ I s' (step t x)) ->
  forall s t, I s t ->
    exists s', Store.for_each xs body s = Some s' /\ I s' (fold_left step xs t).
Proof.
  induction xs as [|x xs IH]; intros Hbody s t Hst; simpl; [eauto|].
  destruct (Hbody s t x (or_introl eq_refl) Hst) as (s' & -> & Hs').
  apply IH; [|exact Hs']. intros s0 t0 x0 Hx0. apply Hbody. now right.
Qed.

Ltac loop_sim I :=
  match goal with
  | |- context [Store.for_each ?xs ?body ?s] =>
      match goal with
      | |- context [fold_left ?step xs ?t] =>
          let H := fresh "Hloop" in
          assert (H : exists s', Store.for_each xs body s = Some s' /\
                                 I s' (fold_left step xs t));
          [apply for_each_sim|]
      end
  end.

Lemma numRows_contents h a A :
  Store.contents h a = Some A -> Store.numRows h a = Some (numRows A).
Proof.
  intros H. apply contents_inv in H as (m & d & Ha & _).
  unfold Store.numRows. now rewrite Ha.
Qed.

Lemma numCols_contents h a A :
  Store.contents h a = Some A -> Store.numCols h a = Some (numCols A).
Proof.
  intros H. apply contents_inv in H as (m & d & Ha & _).
  unfold Store.numCols. now rewrite Ha.
Qed.

Lemma read_rows_keys h d : forall rs,
  Store.read_rows h d = Some rs -> dict_keys rs = dict_keys d.
Proof.
  induction d as [|[k l] d IH]; simpl; intros rs.
  - now intros [= <-].
  - destruct (Store.cols_at h l) as [cd|]; [|discriminate]. simpl.
    destruct (Store.read_rows h d) as [rs'|]; [|discriminate]. simpl.
    intros [= <-]. simpl. f_equal. now apply IH.
Qed.

Lemma rows_of_contents h a A :
  Store.contents h a = Some A ->
  exists m d, Store.rows_of h a = Some (m, d) /\ dict_keys d = dict_keys (matrix A).
Proof.
  intros H. apply contents_inv in H as (m & d & Ha & Hm & Hrows).
  exists m, d. unfold Store.rows_of. rewrite Ha, Hm. split; [reflexivity|].
  symmetry. eapply read_rows_keys; eauto.
Qed.

Lemma row_contains_contents h a A row col :
  Store.contents h a = Some A -> In row (dict_keys (matrix A)) ->
  Store.row_contains h a row col =
  Some (dict_contains (dict_get (matrix A) row []) col).
Proof.
  intros H Hin. apply contents_inv in H as (m & d & Ha & Hm & Hrows).
  unfold Store.row_contains, Store.rows_of. rewrite Ha, Hm. simpl.
  pose proof (read_rows_lookup h d _ row Hrows) as Hl.
  destruct (dict_lookup d row) as [l|].
  - simpl. destruct Hl as (cd & -> & Hr). simpl. unfold dict_get. now rewrite Hr.
  - apply dict_lookup_None in Hl. contradiction.
Qed.

Lemma dot_contents h a b A B row col :
  Store.contents h a = Some A -> Store.contents h b = Some B ->
  Store.dot h a b row col = Some (dot A B row col).
Proof.
  intros HA HB. unfold Store.dot, dot, sum_over.
  rewrite (numCols_contents h a A HA). simpl.
  loop_sim (fun x y : Z => x = y).
  - intros s t k _ ->.
    rewrite (get_element_contents h a A) by exact HA.
    rewrite (get_element_contents h b B) by exact HB. simpl. eauto.
  - reflexivity.
  - destruct Hloop as (s' & -> & ->). reflexivity.
Qed.

Lemma new_matrix_owned h nr nc :
  Store.unchanged h (Store.new_matrix h nr nc).1 /\
  Store.owned h (Store.new_matrix h nr nc).1 (Store.new_matrix h nr nc).2 /\
  Store.contents (Store.new_matrix h nr nc).1 (Store.new_matrix h nr nc).2 =
    Some (new_matrix nr nc).
Proof.
  unfold Store.new_matrix, Store.alloc. simpl.
  set (m := fresh (dom h)).
  set (h1 := <[m := Store.Rows []]> h).
  set (r := fresh (dom h1)).
  assert (Hm : m ∉ dom h) by apply is_fresh.
  assert (Hr1 : r ∉ dom h1) by apply is_fresh.
  assert (Hr : r ∉ dom h).
  { intros Hin. apply Hr1. unfold h1. rewrite dom_insert_L. set_solver. }
  assert (Hrm : r <> m).
  { intros Heq. apply Hr1. unfold h1. rewrite dom_insert_L, Heq. set_solver. }
  assert (Hlr : (<[r := Store.Instance m nr nc]> h1) !! r = Some (Store.Instance m nr nc))
    by apply lookup_insert_eq.
  assert (Hlm : (<[r := Store.Instance m nr nc]> h1) !! m = Some (Store.Rows [])).
  { rewrite lookup_insert_ne by exact Hrm. apply lookup_insert_eq. }
  split; [|split].
  - apply unchanged_insert; [|exact Hr].
    apply unchanged_insert; [apply unchanged_refl|exact Hm].
  - exists m, [], nr, nc. simpl. repeat split; auto. constructor.
  - now apply (contents_intro _ r m []).
Qed.

Lemma elementwise_sim op h a b A B :
  Store.contents h a = Some A -> Store.contents h b = Some B ->
  exists h' r,
    Store.elementwise op h a b = Some (h', r) /\
    result_inv h r h' (elementwise op A B).
Proof.
  intros HA HB. unfold Store.elementwise.
  rewrite (numRows_contents h a A HA), (numCols_contents h a A HA).
  cbn [mbind option_bind].
  destruct (new_matrix_owned h (numRows A) (numCols A)) as (Hun & Hown & Hcont).
  destruct (Store.new_matrix h (numRows A) (numCols A)) as [h0 r].
  cbn [fst snd mbind option_bind] in *.
  unfold elementwise. loop_sim (result_inv h r).
  - intros h1 R row _ (Hun1 & Hown1 & Hcont1).
    rewrite (numCols_contents h1 a A) by now apply (contents_unchanged h).
    simpl. apply for_each_sim; [|repeat split; assumption].
    intros h2 R2 col _ (Hun2 & Hown2 & Hcont2).
    rewrite (get_element_contents h2 a A) by now apply (contents_unchanged h).
    rewrite (get_element_contents h2 b B) by now apply (contents_unchanged h).
    simpl. now apply set_element_sim.
  - repeat split; assumption.
  - destruct Hloop as (h' & -> & Hinv). simpl. eauto.
Qed.

Lemma multiply_sim h a b A B :
  Store.contents h a = Some A -> Store.contents h b = Some B ->
  match multiply A B with
  | inl e => Store.multiply h a b = Some (h, inl e)
  | inr P =>
      exists h' r,
        Store.multiply h a b = Some (h', inr r) /\ result_inv h r h' P
  end.
Proof.
  intros HA HB. unfold Store.multiply, multiply.
  rewrite (numCols_contents h a A HA), (numRows_contents h b B HB).
  cbn [mbind option_bind].
  destruct (negb (numCols A =? numRows B)); [reflexivity|].
  rewrite (numRows_contents h a A HA), (numCols_contents h b B HB).
  cbn [mbind option_bind].
  destruct (new_matrix_owned h (numRows A) (numCols B)) as (Hun & Hown & Hcont).
  destruct (Store.new_matrix h (numRows A) (numCols B)) as [h0 r].
  cbn [fst snd mbind option_bind] in *.
  destruct (rows_of_contents h0 a A) as (ma & da & -> & Hka);
    [now apply (contents_unchanged h)|].
  cbn [mbind option_bind]. rewrite Hka.
  loop_sim (result_inv h r).
  - intros h1 R row Hrow (Hun1 & Hown1 & Hcont1).
    destruct (rows_of_contents h1 b B) as (mb & db & -> & Hkb);
      [now apply (contents_unchanged h)|].
    cbn [mbind option_bind]. rewrite Hkb.
    apply for_each_sim; [|repeat split; assumption].
    intros h2 R2 col _ (Hun2 & Hown2 & Hcont2).
    assert (HA2 : Store.contents h2 a = Some A) by now apply (contents_unchanged h).
    assert (HB2 : Store.contents h2 b = Some B) by now apply (contents_unchanged h).
    rewrite (row_contains_contents h2 a A) by assumption.
    cbn [mbind option_bind].
    destruct (dict_contains (dict_get (matrix A) row []) col).
    + rewrite (dot_contents h2 a b A B) by assumption.
      cbn [mbind option_bind]. now apply set_element_sim.
    + exists h2. repeat split; assumption.
  - repeat split; assumption.
  - destruct Hloop as (h' & -> & Hinv). simpl. eauto.
Qed.

Lemma owned_footprint h0 h r :
  Store.owned h0 h r -> (r ∉ dom h0) /\ (Store.footprint h r ## dom h0).
Proof.
  intros (m & d & nr & nc & Hr & Hm & Hr0 & Hm0 & Hd0 & _).
  split; [exact Hr0|].
  unfold Store.footprint, Store.rows_of. rewrite Hr, Hm.
  intros l Hl Hl0. apply elem_of_union in Hl as [Hl|Hl].
  - apply elem_of_union in Hl as [Hl|Hl]; apply elem_of_singleton in Hl; subst;
      contradiction.
  - apply elem_of_list_to_set in Hl. apply list_elem_of_In in Hl.
    now apply (Hd0 l).
Qed.

Lemma result_inv_preserves h r h' R a A :
  result_inv h r h' R -> Store.contents h a = Some A ->
  Store.preserves_operands h h' r /\
  Store.contents h' a = Some A /\ Store.contents h' r = Some R.
Proof.
  intros (Hun & Hown & Hcont) HA.
  destruct (owned_footprint h h' r Hown) as [Hr Hfp].
  repeat split; auto. now apply (contents_unchanged h).
Qed.
End StoreLoops.

(** C8. On a store in which [a] and [b] refer to matrices (possibly the
    same object), [add], [subtract] and [multiply] run to completion, leave
    every object that existed before as it was, so that both operands have
    the same dimensions and the same stored entries afterwards, and return
    an instance that did not exist before and that shares no dictionary with
    what existed before. When the sizes are incompatible, [multiply] leaves
    the store as it is. The results are those of the operations on the
    matrices the operands stand for. *)
Theorem operations_preserve_operands (h : Store.store) (a b : Store.loc)
    (A B : SparseMatrix) :
  Store.contents h a = Some A ->
  Store.contents h b = Some B ->
  (exists h' r,
      Store.add h a b = Some (h', r) /\ operation_ok h a b A B h' r (add A B)) /\
  (exists h' r,
      Store.subtract h a b = Some (h', r) /\
      operation_ok h a b A B h' r (subtract A B)) /\
  match multiply A B with
  | inr P =>
      exists h' r,
        Store.multiply h a b = Some (h', inr r) /\ operation_ok h a b A B h' r P
  | inl e => Store.multiply h a b = Some (h, inl e)
  end.
Proof.
  intros HA HB.
  assert (Hok : forall h' r R, result_inv h r h' R -> operation_ok h a b A B h' r R).
  { intros h' r R Hinv. unfold operation_ok.
    destruct (result_inv_preserves h r h' R a A Hinv HA) as (Hp & Ha & Hr).
    destruct (result_inv_preserves h r h' R b B Hinv HB) as (_ & Hb & _).
    auto. }
  split; [|split].
  - destruct (elementwise_sim Z.add h a b A B HA HB) as (h' & r & Hrun & Hinv).
    exists h', r. split; [exact Hrun|]. now apply Hok.
  - destruct (elementwise_sim Z.sub h a b A B HA HB) as (h' & r & Hrun & Hinv).
    exists h', r. split; [exact Hrun|]. now apply Hok.
  - pose proof (multiply_sim h a b A B HA HB) as H.
    destruct (multiply A B) as [e|P]; [exact H|].
    destruct H as (h' & r & Hrun & Hinv).
    exists h', r. split; [exact Hrun|]. now apply Hok.
Qed.

Lemma operations_preserve_operands_witness :
  (exists h' r,
      Store.add example_store 2%positive 6%positive = Some (h', r) /\
      operation_ok example_store 2%positive 6%positive example_left example_right
        h' r (add example_left example_right)) /\
  (exists h' r,
      Store.subtract example_store 2%positive 6%positive = Some (h', r) /\
      operation_ok example_store 2%positive 6%positive example_left example_right
        h' r (subtract example_left example_right)) /\
  match multiply example_left example_right with
  | inr P =>
      exists h' r,
        Store.multiply example_store 2%positive 6%positive = Some (h', inr r) /\
        operation_ok example_store 2%positive 6%positive example_left example_right
          h' r P
  | inl e => Store.multiply example_store 2%positive 6%positive = Some (example_store, inl e)
  end.
Proof.
  apply (operations_preserve_operands example_store 2%positive 6%positive
           example_left example_right).
  - vm_compute. reflexivity.
  - vm_compute. reflexivity.
Defined.

(** With incompatible sizes nothing is allocated: the store is returned
    as it was, with the exception. *)
Lemma multiply_mismatch_store h a b A B :
  Store.contents h a = Some A -> Store.contents h b = Some B ->
  numCols A <> numRows B ->
  Store.multiply h a b = Some (h, inl IncompatibleSizes).
Proof.
  intros HA HB Hne. pose proof (multiply_sim h a b A B HA HB) as H.
  unfold multiply in H. apply Z.eqb_neq in Hne. now rewrite Hne in H.
Qed.

(* ===================================================================== *)
(** * Part III: further properties of the operations *)
(* ===================================================================== *)

(** ** Stored entries and what is read *)

Lemma has_entry_stored_keys M r c :
  has_entry M r c = true -> In (r, c) (stored_keys M).
Proof.
  unfold has_entry, stored_keys.
  destruct (dict_lookup (matrix M) r) as [cols|] eqn:E; [|discriminate].
  intros H. apply in_flat_map. exists (r, cols). split.
  - now apply dict_lookup_In.
  - apply in_map. now apply dict_contains_keys.
Qed.

Lemma not_stored_reads_zero M r c :
  ~ In (r, c) (stored_keys M) -> get_element M r c = 0 /\ has_entry M r c = false.
Proof.
  intros Hnot.
  assert (Hno : has_entry M r c = false).
  { destruct (has_entry M r c) eqn:E; [|reflexivity].
    apply has_entry_stored_keys in E. contradiction. }
  split; [|exact Hno].
  unfold has_entry, dict_contains in Hno. unfold get_element, dict_get.
  destruct (dict_lookup (matrix M) r) as [cols|]; [|reflexivity].
  destruct (dict_lookup cols c); [discriminate|reflexivity].
Qed.

Lemma has_entry_store_entry_other (m : dict (dict Z)) nr nc row col value row' col' :
  (row, col) <> (row', col') ->
  has_entry (mkSparseMatrix (store_entry m row col value) nr nc) row' col' =
  has_entry (mkSparseMatrix m nr nc) row' col'.
Proof.
  intros Hne. unfold has_entry. simpl.
  destruct (Z.eq_dec row row') as [<-|Hr].
  - rewrite store_entry_lookup_eq. unfold dict_get, dict_contains.
    assert (Hc : col <> col') by congruence.
    rewrite dict_lookup_setitem_ne by exact Hc.
    now destruct (dict_lookup m row).
  - now rewrite store_entry_lookup_ne.
Qed.

(** X1. An assignment changes one position only: every other position
    reads as before and is stored exactly when it was stored before, and
    the dimensions stay as they are. *)
Theorem set_element_elsewhere (M : SparseMatrix) (r c v r' c' : Z) :
  (r, c) <> (r', c') ->
  get_element (set_element M r c v) r' c' = get_element M r' c' /\
  has_entry (set_element M r c v) r' c' = has_entry M r' c' /\
  numRows (set_element M r c v) = numRows M /\
  numCols (set_element M r c v) = numCols M.
Proof.
  intros Hne. split; [now apply get_set_other|]. split; [|split; reflexivity].
  rewrite set_element_store. destruct M as [m nr nc]. simpl.
  now apply has_entry_store_entry_other.
Qed.

Lemma set_element_elsewhere_witness :
  get_element (set_element add_witness_a 1 1 9) 0 1 = 3 /\
  has_entry (set_element add_witness_a 1 1 9) 0 1 = true /\
  numRows (set_element add_witness_a 1 1 9) = 2 /\
  numCols (set_element add_witness_a 1 1 9) = 2.
Proof.
  apply (set_element_elsewhere add_witness_a 1 1 9 0 1). discriminate.
Defined.

Lemma stored_keys_store_entry_count (m : dict (dict Z)) nr nc row col value :
  stored_keys (mkSparseMatrix (store_entry m row col value) nr nc) =
    stored_keys (mkSparseMatrix m nr nc) /\
    has_entry (mkSparseMatrix m nr nc) row col = true
  \/
  length (stored_keys (mkSparseMatrix (store_entry m row col value) nr nc)) =
    S (length (stored_keys (mkSparseMatrix m nr nc))) /\
    has_entry (mkSparseMatrix m nr nc) row col = false.
Proof.
  unfold stored_keys, has_entry. simpl.
  induction m as [|[k cols] m IH]; rewrite store_entry_unfold; simpl.
  - right. auto.
  - destruct (row =? k) eqn:E; simpl.
    + rewrite dict_keys_setitem. destruct (dict_contains cols col).
      * left. auto.
      * right. split; [|reflexivity].
        rewrite map_app, !length_app. simpl. lia.
    + destruct IH as [[-> H]|[Hlen H]]; [left; auto|right].
      split; [|exact H]. rewrite !length_app, Hlen. lia.
Qed.

(** X2. Assigning to a position that is already stored keeps the stored
    keys and their order; assigning to a position that is not stored adds
    exactly one stored entry. Nothing is ever removed, whatever the value. *)
Theorem set_element_stored_keys (M : SparseMatrix) (r c v : Z) :
  (has_entry M r c = true ->
   stored_keys (set_element M r c v) = stored_keys M) /\
  (has_entry M r c = false ->
   length (stored_keys (set_element M r c v)) = S (length (stored_keys M))).
Proof.
  rewrite set_element_store. destruct M as [m nr nc]. simpl.
  destruct (stored_keys_store_entry_count m nr nc r c v) as [[H1 H2]|[H1 H2]];
    rewrite H2; split; intros H; try discriminate; assumption.
Qed.

Lemma set_element_stored_keys_witness :
  stored_keys (set_element add_witness_a 0 1 0) = stored_keys add_witness_a /\
  length (stored_keys (set_element add_witness_a 1 0 0)) =
    S (length (stored_keys add_witness_a)).
Proof.
  destruct (set_element_stored_keys add_witness_a 0 1 0) as [H1 _].
  destruct (set_element_stored_keys add_witness_a 1 0 0) as [_ H2].
  split; [apply H1|apply H2]; reflexivity.
Defined.

(** X3. [set_element] checks no bound: on a matrix whose keys are all
    inside its dimensions, the keys are all inside after the assignment
    exactly when the position assigned is inside. *)
Theorem set_element_bounds (M : SparseMatrix) (r c v : Z) :
  keys_in_bounds M = true ->
  keys_in_bounds (set_element M r c v) =
  (0 <=? r) && (r <? numRows M) && (0 <=? c) && (c <? numCols M).
Proof.
  intros HM. rewrite keys_in_bounds_spec in HM.
  destruct ((0 <=? r) && (r <? numRows M) && (0 <=? c) && (c <? numCols M)) eqn:E.
  - apply keys_in_bounds_spec. intros r' c' Hin.
    apply stored_keys_set_element in Hin as [[= -> ->]|Hin]; [simpl; lia|].
    now apply HM.
  - destruct (keys_in_bounds (set_element M r c v)) eqn:K; [|reflexivity].
    rewrite keys_in_bounds_spec in K.
    specialize (K r c (has_entry_stored_keys _ _ _ (has_entry_set_same M r c v))).
    simpl in K. lia.
Qed.

Lemma set_element_bounds_witness :
  keys_in_bounds (set_element add_witness_a 5 0 1) = false.
Proof.
  apply (set_element_bounds add_witness_a 5 0 1). reflexivity.
Defined.

(** ** [add] and [subtract] beyond the grid *)

Lemma in_bounds_reads_zero_outside M r c :
  keys_in_bounds M = true ->
  ~ (0 <= r < numRows M /\ 0 <= c < numCols M) ->
  get_element M r c = 0.
Proof.
  intros HM Hout. apply not_stored_reads_zero. intros Hin.
  rewrite keys_in_bounds_spec in HM. apply Hout. now apply HM.
Qed.

Lemma elementwise_outside op a b row col :
  ~ (0 <= row < numRows a /\ 0 <= col < numCols a) ->
  get_element (elementwise op a b) row col = 0 /\
  has_entry (elementwise op a b) row col = false.
Proof.
  intros Hout. apply not_stored_reads_zero. intros Hin.
  destruct (elementwise_spec op a b) as (_ & _ & _ & Hk). apply Hout. now apply Hk.
Qed.

(** X4. The sum and the difference are cut to the grid of the first
    operand: outside that grid they store nothing and read 0, whatever
    either operand holds there. *)
Theorem add_subtract_outside_grid (a b : SparseMatrix) (row col : Z) :
  ~ (0 <= row < numRows a /\ 0 <= col < numCols a) ->
  get_element (add a b) row col = 0 /\ has_entry (add a b) row col = false /\
  get_element (subtract a b) row col = 0 /\ has_entry (subtract a b) row col = false.
Proof.
  intros Hout.
  destruct (elementwise_outside Z.add a b row col Hout) as [H1 H2].
  destruct (elementwise_outside Z.sub a b row col Hout) as [H3 H4].
  unfold add, subtract. auto.
Qed.

Lemma add_subtract_outside_grid_witness :
  get_element (add (new_matrix 1 1) add_witness_a) 0 1 = 0 /\
  has_entry (add (new_matrix 1 1) add_witness_a) 0 1 = false /\
  get_element (subtract (new_matrix 1 1) add_witness_a) 0 1 = 0 /\
  has_entry (subtract (new_matrix 1 1) add_witness_a) 0 1 = false.
Proof.
  apply (add_subtract_outside_grid (new_matrix 1 1) add_witness_a 0 1).
  simpl. lia.
Defined.

Lemma fill_ext f g ps : forall M,
  (forall r c, In (r, c) ps -> f r c = g r c) -> fill f ps M = fill g ps M.
Proof.
  unfold fill. induction ps as [|[r c] ps IH]; intros M Hfg; simpl; [reflexivity|].
  rewrite (Hfg r c) by now left. apply IH. intros r' c' Hin. apply Hfg. now right.
Qed.

(** X5. For operands of the same dimensions, [add] gives the same matrix
    in both orders: the same dimensions and the same stored entries, in the
    same order. *)
Theorem add_commutes (a b : SparseMatrix) :
  numRows a = numRows b -> numCols a = numCols b -> add a b = add b a.
Proof.
  intros Hr Hc. unfold add. rewrite !elementwise_fill, <- Hr, <- Hc.
  apply fill_ext. intros r c _. lia.
Qed.

Lemma add_commutes_witness : add add_witness_a add_witness_b = add add_witness_b add_witness_a.
Proof. apply add_commutes; reflexivity. Defined.

(** X6. Adding an empty matrix, of any dimensions, to a matrix whose keys
    are inside its dimensions gives a matrix that reads like it at every
    position. *)
Theorem add_empty (M : SparseMatrix) (nr nc r c : Z) :
  keys_in_bounds M = true ->
  get_element (add M (new_matrix nr nc)) r c = get_element M r c.
Proof.
  intros HM.
  assert (Hgrid : (0 <= r < numRows M /\ 0 <= c < numCols M) \/
                  ~ (0 <= r < numRows M /\ 0 <= c < numCols M)) by lia.
  destruct Hgrid as [[Hrow Hcol]|Hout].
  - destruct (elementwise_spec Z.add M (new_matrix nr nc)) as (_ & _ & Hget & _).
    fold (add M (new_matrix nr nc)) in Hget.
    destruct (Hget r c Hrow Hcol) as [-> _].
    unfold get_element at 2. simpl. unfold dict_get. simpl. lia.
  - rewrite (in_bounds_reads_zero_outside M r c HM Hout).
    now apply elementwise_outside.
Qed.

Lemma add_empty_witness :
  get_element (add add_witness_a (new_matrix 7 0)) 0 1 = get_element add_witness_a 0 1.
Proof. apply add_empty. reflexivity. Defined.

(** X7. For matrices of integers, subtracting the second operand from a
    sum gives back the elements of the first operand: at every position of
    its grid, and at every position at all when its keys are inside its
    dimensions. (Integer arithmetic is exact; with floats the sum may have
    been rounded.) *)
Theorem subtract_after_add (a b : SparseMatrix) (r c : Z) :
  (0 <= r < numRows a /\ 0 <= c < numCols a) \/ keys_in_bounds a = true ->
  get_element (subtract (add a b) b) r c = get_element a r c.
Proof.
  intros H.
  destruct (elementwise_spec Z.add a b) as (Hr & Hc & Hadd & _).
  fold (add a b) in Hr, Hc, Hadd.
  assert (Hin : 0 <= r < numRows a /\ 0 <= c < numCols a ->
                get_element (subtract (add a b) b) r c = get_element a r c).
  { intros [Hrow Hcol].
    destruct (elementwise_spec Z.sub (add a b) b) as (_ & _ & Hsub & _).
    fold (subtract (add a b) b) in Hsub.
    destruct (Hsub r c) as [-> _]; [lia|lia|].
    destruct (Hadd r c Hrow Hcol) as [-> _]. lia. }
  destruct H as [H|H]; [now apply Hin|].
  assert (Hgrid : (0 <= r < numRows a /\ 0 <= c < numCols a) \/
                  ~ (0 <= r < numRows a /\ 0 <= c < numCols a)) by lia.
  destruct Hgrid as [Hgrid|Hout]; [now apply Hin|].
  rewrite (in_bounds_reads_zero_outside a r c H Hout).
  apply elementwise_outside. now rewrite Hr, Hc.
Qed.

Lemma subtract_after_add_witness :
  get_element (subtract (add add_witness_a add_witness_b) add_witness_b) 0 1 = 3.
Proof.
  apply (subtract_after_add add_witness_a add_witness_b 0 1). right. reflexivity.
Defined.

(** ** The exact shape of what is built *)

Lemma store_all_app es1 es2 m :
  store_all (es1 ++ es2) m = store_all es2 (store_all es1 m).
Proof. unfold store_all. apply fold_left_app. Qed.

Lemma store_all_cons r c v es m :
  store_all ((r, c, v) :: es) m = store_all es (store_entry m r c v).
Proof. reflexivity. Qed.

Lemma store_entry_last_row (m0 : dict (dict Z)) r cols1 c v :
  ~ In r (dict_keys m0) -> dict_lookup cols1 c = None ->
  store_entry (m0 ++ [(r, cols1)]) r c v = m0 ++ [(r, cols1 ++ [(c, v)])].
Proof.
  intros Hr Hc. induction m0 as [|[k cols] m0 IH]; rewrite store_entry_unfold; simpl.
  - rewrite Z.eqb_refl. now rewrite dict_setitem_absent.
  - simpl in Hr. destruct (r =? k) eqn:E.
    + apply Z.eqb_eq in E. subst. tauto.
    + rewrite IH; tauto.
Qed.

Lemma store_all_row (m0 : dict (dict Z)) r cols2 : forall cols1,
  ~ In r (dict_keys m0) -> dict_wf (cols1 ++ cols2) ->
  store_all (map (fun '(c, v) => (r, c, v)) cols2) (m0 ++ [(r, cols1)]) =
  m0 ++ [(r, cols1 ++ cols2)].
Proof.
  unfold dict_wf, dict_keys.
  induction cols2 as [|[c v] cols2 IH]; intros cols1 Hr Hwf.
  - simpl. now rewrite app_nil_r.
  - simpl map. rewrite store_all_cons.
    rewrite store_entry_last_row; [| exact Hr |].
    + rewrite IH; [now rewrite <- app_assoc|exact Hr|].
      now rewrite <- app_assoc.
    + apply dict_lookup_None. unfold dict_keys.
      rewrite map_app in Hwf. simpl in Hwf.
      apply List.NoDup_remove_2 in Hwf. intros Hin. apply Hwf.
      apply in_or_app. now left.
Qed.

Lemma store_all_new_row (m0 : dict (dict Z)) r cols :
  ~ In r (dict_keys m0) -> cols <> [] -> dict_wf cols ->
  store_all (map (fun '(c, v) => (r, c, v)) cols) m0 = m0 ++ [(r, cols)].
Proof.
  intros Hr Hne Hwf. destruct cols as [|[c v] cols]; [congruence|].
  simpl map. rewrite store_all_cons.
  rewrite store_entry_absent by now apply dict_lookup_None.
  now rewrite store_all_row.
Qed.

Lemma store_all_rows (m2 : dict (dict Z)) : forall m1,
  dict_wf (m1 ++ m2) ->
  (forall r cols, In (r, cols) m2 -> cols <> [] /\ dict_wf cols) ->
  store_all (entries_of m2) m1 = m1 ++ m2.
Proof.
  unfold dict_wf, dict_keys.
  induction m2 as [|[r cols] m2 IH]; intros m1 Hwf Hrows.
  - simpl. now rewrite app_nil_r.
  - change (entries_of ((r, cols) :: m2))
      with (map (fun '(c, v) => (r, c, v)) cols ++ entries_of m2).
    rewrite store_all_app.
    destruct (Hrows r cols (or_introl eq_refl)) as [Hne Hcols].
    rewrite store_all_new_row; [| |exact Hne|exact Hcols].
    + rewrite IH; [now rewrite <- app_assoc| |].
      * now rewrite <- app_assoc.
      * intros r' cols' Hin. apply (Hrows r'). now right.
    + rewrite map_app in Hwf. simpl in Hwf.
      apply List.NoDup_remove_2 in Hwf. intros Hin. apply Hwf.
      apply in_or_app. now left.
Qed.

Lemma parse_serialize_canonical M : canonical M -> parse (serialize M) = inr M.
Proof.
  intros [[Hwf Hcols] Hne].
  unfold parse, load_matrix. rewrite serialize_lines.
  unfold load_lines. cbn [nth skipn].
  rewrite header_rows, header_cols. cbn [bind].
  rewrite skipn_O, load_entries_written.
  rewrite (store_all_rows (matrix M) []); [now destruct M|exact Hwf|].
  intros r cols Hin. split; [eapply Hne|eapply Hcols]; eauto.
Qed.

(** X8. A matrix of integers in which no dictionary holds a key twice and
    no row is empty is read back from its own text exactly: the same
    dimensions and the same stored entries in the same order. *)
Theorem serialize_parse_exact (M : SparseMatrix) :
  canonical M -> parse (serialize M) = inr M.
Proof. apply parse_serialize_canonical. Qed.

Lemma roundtrip_example_canonical : canonical roundtrip_example.
Proof.
  split; [exact roundtrip_example_wf|].
  intros row cols [H|[H|[]]]; injection H as <- <-; discriminate.
Defined.

Lemma serialize_parse_exact_witness :
  parse (serialize roundtrip_example) = inr roundtrip_example.
Proof. apply serialize_parse_exact. exact roundtrip_example_canonical. Defined.

Lemma set_element_no_empty_row M r c v :
  no_empty_row M -> no_empty_row (set_element M r c v).
Proof.
  intros HM row cols Hin. rewrite set_element_store in Hin. simpl in Hin.
  apply store_entry_In in Hin as [Hin|(old & _ & ->)]; [eapply HM; eauto|].
  destruct old as [|[k x] old]; simpl; [discriminate|].
  destruct (c =? k); discriminate.
Qed.

Lemma set_element_canonical M r c v : canonical M -> canonical (set_element M r c v).
Proof.
  intros [Hwf Hne]. split; [now apply set_element_wf|now apply set_element_no_empty_row].
Qed.

Lemma new_matrix_canonical r c : canonical (new_matrix r c).
Proof. split; [apply new_matrix_wf|]. intros row cols []. Qed.

Lemma load_entries_canonical lines : forall m m' nr nc,
  load_entries lines m = inr m' ->
  canonical (mkSparseMatrix m nr nc) -> canonical (mkSparseMatrix m' nr nc).
Proof.
  induction lines as [|line lines IH]; simpl; intros m m' nr nc.
  - now intros [= <-].
  - destruct (strip line); [apply IH|].
    destruct (parse_entry line) as [e|[[row col] value]]; [discriminate|].
    intros H Hc. apply (IH _ _ nr nc H).
    apply (set_element_canonical (mkSparseMatrix m nr nc) row col value Hc).
Qed.

Lemma elementwise_canonical op a b : canonical (elementwise op a b).
Proof.
  unfold elementwise.
  apply fold_left_invariant; [|apply new_matrix_canonical].
  intros M row HM. apply fold_left_invariant; [|exact HM].
  intros M' col HM'. now apply set_element_canonical.
Qed.

Lemma multiply_canonical a b R : multiply a b = inr R -> canonical R.
Proof.
  unfold multiply.
  destruct (negb (numCols a =? numRows b)); [discriminate|]. intros [= <-].
  apply fold_left_invariant; [|apply new_matrix_canonical].
  intros M row HM. apply fold_left_invariant; [|exact HM].
  intros M' col HM'.
  destruct (dict_contains _ col); [now apply set_element_canonical|exact HM'].
Qed.

Lemma parse_canonical contents M : parse contents = inr M -> canonical M.
Proof.
  unfold parse, load_matrix, load_lines, init_loaded.
  destruct (header_value _) as [e|rows]; simpl; [discriminate|].
  destruct (header_value _) as [e|cols]; simpl; [discriminate|].
  destruct (load_entries _ []) as [e|m] eqn:E; simpl; [discriminate|].
  intros [= <-]. apply (load_entries_canonical _ [] m rows cols E).
  apply (new_matrix_canonical rows cols).
Qed.

(** X9. Every matrix the program builds has no key twice in any dictionary
    and no empty row: the empty matrix, the result of an assignment on such
    a matrix, a sum, a difference, a product and a loaded matrix. *)
Theorem built_matrices_canonical :
  (forall r c, canonical (new_matrix r c)) /\
  (forall M r c v, canonical M -> canonical (set_element M r c v)) /\
  (forall a b, canonical (add a b) /\ canonical (subtract a b)) /\
  (forall a b R, multiply a b = inr R -> canonical R) /\
  (forall contents M, parse contents = inr M -> canonical M).
Proof.
  split; [apply new_matrix_canonical|].
  split; [apply set_element_canonical|].
  split; [intros a b; split; apply elementwise_canonical|].
  split; [apply multiply_canonical|apply parse_canonical].
Qed.

Lemma built_matrices_canonical_witness : canonical (set_element (new_matrix 2 2) 0 0 5).
Proof.
  destruct built_matrices_canonical as (Hnew & Hset & _).
  apply Hset. apply Hnew.
Defined.

Lemma fill_store_all f ps : forall M,
  fill f ps M =
  mkSparseMatrix (store_all (map (fun '(r, c) => (r, c, f r c)) ps) (matrix M))
                 (numRows M) (numCols M).
Proof.
  unfold fill.
  induction ps as [|[r c] ps IH]; intros M; simpl; [now destruct M|].
  rewrite IH. reflexivity.
Qed.

Lemma grid_entries (f : Z -> Z -> Z) (rs cs : list Z) :
  map (fun '(r, c) => (r, c, f r c)) (list_prod rs cs) =
  entries_of (map (fun r => (r, map (fun c => (c, f r c)) cs)) rs).
Proof.
  unfold entries_of. induction rs as [|r rs IH]; simpl; [reflexivity|].
  rewrite map_app, IH, !map_map. reflexivity.
Qed.

Lemma range_NoDup n : List.NoDup (range n).
Proof.
  unfold range. apply Finite.Injective_map_NoDup; [|apply List.seq_NoDup].
  intros x y H. lia.
Qed.

Lemma range_empty n : n <= 0 -> range n = [].
Proof. intros H. unfold range. now replace (Z.to_nat n) with 0%nat by lia. Qed.

Lemma range_nonempty n : 0 < n -> range n <> [].
Proof.
  intros H Hnil. assert (Hin : In 0 (range n)) by (apply range_In; lia).
  rewrite Hnil in Hin. contradiction.
Qed.

Lemma list_prod_nil_r {A B : Type} (xs : list A) : list_prod xs (@nil B) = [].
Proof. induction xs; simpl; auto. Qed.

Lemma elementwise_closed_form op a b :
  elementwise op a b =
  mkSparseMatrix
    (dense_table (fun r c => op (get_element a r c) (get_element b r c))
                 (numRows a) (numCols a))
    (numRows a) (numCols a).
Proof.
  rewrite elementwise_fill, fill_store_all. simpl. f_equal.
  unfold dense_table. destruct (0 <? numCols a) eqn:E.
  - apply Z.ltb_lt in E. rewrite grid_entries.
    rewrite (store_all_rows _ []); [reflexivity| |].
    + unfold dict_wf, dict_keys. simpl. rewrite map_map. simpl.
      rewrite map_id. apply range_NoDup.
    + intros r cols Hin. apply in_map_iff in Hin as (r' & [= <- <-] & _). split.
      * intros Hnil. apply map_eq_nil in Hnil.
        apply (range_nonempty (numCols a)); [exact E|exact Hnil].
      * unfold dict_wf, dict_keys. rewrite map_map. simpl.
        rewrite map_id. apply range_NoDup.
  - apply Z.ltb_ge in E. rewrite (range_empty (numCols a)) by exact E.
    now rewrite list_prod_nil_r.
Qed.

(** X10. The sum and the difference are the full table in row-major
    order: one row per index below the number of rows of the first operand,
    each holding one entry per index below its number of columns, and no
    row at all when that number of columns is not positive. *)
Theorem add_subtract_closed_form (a b : SparseMatrix) :
  add a b =
    mkSparseMatrix
      (dense_table (fun r c => get_element a r c + get_element b r c)
                   (numRows a) (numCols a))
      (numRows a) (numCols a) /\
  subtract a b =
    mkSparseMatrix
      (dense_table (fun r c => get_element a r c - get_element b r c)
                   (numRows a) (numCols a))
      (numRows a) (numCols a).
Proof. split; apply elementwise_closed_form. Qed.

Lemma entries_of_length (m : dict (dict Z)) nr nc :
  length (entries_of m) = length (stored_keys (mkSparseMatrix m nr nc)).
Proof.
  unfold entries_of, stored_keys, dict_keys. simpl.
  induction m as [|[r cols] m IH]; simpl; [reflexivity|].
  now rewrite !length_app, !length_map, IH.
Qed.

(** X11. The text written for a matrix is, line by line: the line of the
    number of rows, the line of the number of columns, then one line per
    stored entry, in iteration order, whatever the values; so it has two
    lines more than the matrix has stored entries. *)
Theorem serialize_line_by_line (M : SparseMatrix) :
  input_lines (serialize M) =
    (txt "rows=" ++ str_int (numRows M) ++ [newline])
    :: (txt "cols=" ++ str_int (numCols M) ++ [newline])
    :: map (fun '(row, col, value) => entry_line row col value)
         (entries_of (matrix M)) /\
  length (input_lines (serialize M)) = (2 + length (stored_keys M))%nat.
Proof.
  unfold input_lines. rewrite serialize_lines. split; [reflexivity|].
  simpl. rewrite length_map. destruct M as [m nr nc]. simpl.
  now rewrite (entries_of_length m nr nc).
Qed.

(** ** What [multiply] computes *)

Lemma fill_filter f (p : Z -> Z -> bool) ps : forall M,
  fold_left (fun M '(r, c) => if p r c then set_element M r c (f r c) else M) ps M =
  fill f (List.filter (fun '(r, c) => p r c) ps) M.
Proof.
  unfold fill. induction ps as [|[r c] ps IH]; intros M; simpl; [reflexivity|].
  destruct (p r c); simpl; apply IH.
Qed.

Lemma multiply_fill a b :
  numCols a = numRows b ->
  multiply a b =
  inr (fill (dot a b) (product_positions a b) (new_matrix (numRows a) (numCols b))).
Proof.
  intros H. unfold multiply. apply Z.eqb_eq in H. rewrite H. simpl. f_equal.
  rewrite (nested_loops
             (fun M row col =>
                if dict_contains (dict_get (matrix a) row []) col
                then set_element M row col (dot a b row col) else M)).
  apply (fill_filter (dot a b)
           (fun row col => dict_contains (dict_get (matrix a) row []) col)).
Qed.

Lemma product_positions_In a b row col :
  In (row, col) (product_positions a b) <->
  has_entry a row col && dict_contains (matrix b) col = true.
Proof.
  unfold product_positions. rewrite filter_In, in_prod_iff, andb_true_iff.
  rewrite <- !dict_contains_keys. unfold has_entry, dict_get, dict_contains.
  destruct (dict_lookup (matrix a) row) as [cols|]; simpl; [tauto|].
  split; [intros [_ H]|intros [H _]]; discriminate.
Qed.

(** X12. With agreeing inner dimensions, [multiply] returns a matrix with
    the rows of the first operand and the columns of the second in which a
    position is stored exactly when it is a stored position of the first
    operand whose column index is a row key of the second; it holds the
    dot product there, and every other position reads 0. *)
Theorem multiply_computes (a b : SparseMatrix) :
  numCols a = numRows b ->
  exists R,
    multiply a b = inr R /\
    numRows R = numRows a /\ numCols R = numCols b /\
    forall row col,
      has_entry R row col = has_entry a row col && dict_contains (matrix b) col /\
      get_element R row col =
        if has_entry a row col && dict_contains (matrix b) col
        then dot a b row col else 0.
Proof.
  intros H. eexists. split; [now apply multiply_fill|].
  destruct (fill_dims (dot a b) (product_positions a b)
              (new_matrix (numRows a) (numCols b))) as [-> ->].
  split; [reflexivity|]. split; [reflexivity|]. intros row col.
  pose proof (product_positions_In a b row col) as Hin.
  destruct (has_entry a row col && dict_contains (matrix b) col).
  - assert (Hpos : In (row, col) (product_positions a b)) by now apply Hin.
    split; [now apply fill_has_entry_visited|now apply fill_get_visited].
  - assert (Hpos : ~ In (row, col) (product_positions a b)).
    { intros Hpos. apply Hin in Hpos. discriminate. }
    assert (Hnot : ~ In (row, col)
                     (stored_keys (fill (dot a b) (product_positions a b)
                                     (new_matrix (numRows a) (numCols b))))).
    { intros Hs. apply fill_stored_keys in Hs as [Hs|[]]. contradiction. }
    apply not_stored_reads_zero in Hnot as [Hget Hhas]. auto.
Qed.

Lemma multiply_computes_witness :
  exists R,
    multiply example_left example_right = inr R /\
    numRows R = 1 /\ numCols R = 1 /\
    forall row col,
      has_entry R row col =
        has_entry example_left row col && dict_contains (matrix example_right) col /\
      get_element R row col =
        if has_entry example_left row col && dict_contains (matrix example_right) col
        then dot example_left example_right row col else 0.
Proof. apply (multiply_computes example_left example_right). reflexivity. Defined.

(** X13. The product is the matrix product, at every position of the
    result's grid, when the first operand stores every position of its own
    grid, the second has a row for each of its row indices and no more
    columns than rows, and the inner dimensions agree. This is the case of
    two sums or differences of square matrices of one size. *)
Theorem multiply_dense_is_product (a b : SparseMatrix) :
  numCols a = numRows b ->
  numCols b <= numRows b ->
  (forall row col, 0 <= row < numRows a -> 0 <= col < numCols a ->
                   has_entry a row col = true) ->
  (forall k, 0 <= k < numRows b -> dict_contains (matrix b) k = true) ->
  exists R,
    multiply a b = inr R /\
    forall row col, 0 <= row < numRows R -> 0 <= col < numCols R ->
                    get_element R row col = dot a b row col.
Proof.
  intros Hdim Hcols Ha Hb.
  exists (fill (dot a b) (product_positions a b) (new_matrix (numRows a) (numCols b))).
  split; [now apply multiply_fill|].
  destruct (fill_dims (dot a b) (product_positions a b)
              (new_matrix (numRows a) (numCols b))) as [-> ->].
  simpl. intros row col Hrow Hcol.
  apply fill_get_visited. apply product_positions_In.
  rewrite Ha, Hb by lia. reflexivity.
Qed.

Lemma sums_are_dense a b :
  (forall row col, 0 <= row < numRows (add a b) -> 0 <= col < numCols (add a b) ->
                   has_entry (add a b) row col = true) /\
  (0 < numCols a ->
   forall k, 0 <= k < numRows (add a b) -> dict_contains (matrix (add a b)) k = true).
Proof.
  destruct (elementwise_spec Z.add a b) as (Hr & Hc & Hget & _).
  fold (add a b) in Hr, Hc, Hget. rewrite Hr, Hc. split.
  - intros row col Hrow Hcol. now apply Hget.
  - intros Hpos k Hk. destruct (Hget k 0 Hk ltac:(lia)) as [_ H].
    unfold has_entry in H. unfold dict_contains.
    destruct (dict_lookup (matrix (add a b)) k); [reflexivity|discriminate].
Qed.

Lemma multiply_dense_is_product_witness :
  exists R,
    multiply (add add_witness_a add_witness_b) (add add_witness_b add_witness_a) = inr R /\
    forall row col, 0 <= row < numRows R -> 0 <= col < numCols R ->
      get_element R row col =
      dot (add add_witness_a add_witness_b) (add add_witness_b add_witness_a) row col.
Proof.
  apply multiply_dense_is_product.
  - reflexivity.
  - vm_compute. discriminate.
  - apply sums_are_dense.
  - apply sums_are_dense. reflexivity.
Defined.

(** ** More on loading *)

Lemma load_entries_app ls1 : forall ls2 m,
  load_entries (ls1 ++ ls2) m =
  match load_entries ls1 m with
  | inl e => inl e
  | inr m' => load_entries ls2 m'
  end.
Proof.
  induction ls1 as [|l ls1 IH]; intros ls2 m; simpl; [reflexivity|].
  destruct (strip l); [apply IH|].
  destruct (parse_entry l) as [e|[[row col] value]]; [reflexivity|apply IH].
Qed.

Lemma load_entries_ok ls : forall m,
  (exists m', load_entries ls m = inr m') <->
  (forall line, In line ls -> strip line <> [] -> rejected_entry line = false).
Proof.
  induction ls as [|l ls IH]; intros m; simpl.
  - split; [intros _ line []|eauto].
  - destruct (strip l) eqn:Es.
    + rewrite IH. split.
      * intros H line [<-|Hin]; [congruence|now apply H].
      * intros H line Hin. apply H. now right.
    + destruct (parse_entry l) as [e|[[row col] value]] eqn:Ep.
      * split; [intros [m' H]; discriminate|].
        intros H. specialize (H l (or_introl eq_refl)).
        rewrite Es in H. specialize (H ltac:(discriminate)).
        assert (Hr : rejected_entry l = true) by (apply parse_entry_rejected; eauto).
        congruence.
      * rewrite IH. split.
        -- intros H line [->|Hin] Hs; [|now apply H].
           destruct (rejected_entry line) eqn:Er; [|reflexivity].
           apply parse_entry_rejected in Er as [e He]. congruence.
        -- intros H line Hin. apply H. now right.
Qed.

(** X14. A file loads exactly when the field after the first equals sign
    of each of its first two lines is accepted by [int] and every non-blank
    line after them has at least three tokens of which the first three are
    accepted by [int]. Neither the dimensions nor the indices are compared
    with anything. *)
Theorem parse_succeeds_iff (contents : text) :
  (exists M, parse contents = inr M) <->
  (exists rows, header_value (nth 0 (input_lines contents) []) = inr rows) /\
  (exists cols, header_value (nth 1 (input_lines contents) []) = inr cols) /\
  (forall line, In line (entry_lines contents) -> strip line <> [] ->
                rejected_entry line = false).
Proof.
  unfold parse, load_matrix, load_lines, init_loaded, entry_lines.
  fold (input_lines contents).
  rewrite <- (load_entries_ok (skipn 2 (input_lines contents)) []).
  destruct (header_value (nth 0 (input_lines contents) [])) as [e|rows]; simpl.
  { split; [intros [M H]; discriminate|intros ([r H] & _); discriminate]. }
  destruct (header_value (nth 1 (input_lines contents) [])) as [e|cols]; simpl.
  { split; [intros [M H]; discriminate|intros (_ & [c H] & _); discriminate]. }
  destruct (load_entries (skipn 2 (input_lines contents)) []) as [e|m]; simpl.
  - split; [intros [M H]; discriminate|intros (_ & _ & [m' H]); discriminate].
  - split; [intros _; split; [eauto|split; eauto]|intros _; eauto].
Qed.

Lemma header_value_nil : header_value [] = inl IndexError.
Proof. reflexivity. Qed.

(** X15. An input of fewer than two lines, the empty input in particular,
    does not load: it fails with the [ValueError] about the format. *)
Theorem parse_needs_two_lines (contents : text) :
  (length (input_lines contents) < 2)%nat ->
  exists e,
    parse contents = inl (WrongFormat e) /\ forall M, parse contents <> inr M.
Proof.
  intros Hlen.
  destruct (parse_error_wrapped contents) as (e & He & _ & Hno); [|eauto].
  fold (input_lines contents). unfold load_lines.
  destruct (input_lines contents) as [|l0 [|l1 ls]]; simpl in *; try lia.
  - eauto.
  - destruct (header_value l0); simpl; eauto.
Qed.

Lemma parse_needs_two_lines_witness :
  exists e, parse [] = inl (WrongFormat e) /\ forall M, parse [] <> inr M.
Proof. apply parse_needs_two_lines. simpl. lia. Defined.

Lemma init_loads {S : Type} (os : file_system S) (s : S) (file_path : string)
    (rows cols : option Z) :
  file_path <> "" ->
  init os s (Some file_path) rows cols =
    let* M := load_file os s file_path in
    inr (matrix M, Some (numRows M), Some (numCols M)).
Proof.
  intros Hpath. unfold init. apply String.eqb_neq in Hpath. now rewrite Hpath.
Qed.

(** X16. When the constructor is given a path that is not empty, whatever
    goes wrong while the file is loaded, a missing file included, reaches
    the caller as the [ValueError] about the format and as nothing else. *)
Theorem from_file_errors {S : Type} (os : file_system S) (s : S) (file_path : string) :
  file_path <> "" ->
  (read_text os s file_path = None ->
   from_file os s file_path = inl (WrongFormat FileNotFoundError)) /\
  (forall e, from_file os s file_path = inl e ->
             (exists cause, e = WrongFormat cause) /\ is_ValueError e = true).
Proof.
  intros Hpath. unfold from_file. rewrite init_loads by exact Hpath.
  unfold load_file, load_matrix, init_loaded. split.
  - intros ->. reflexivity.
  - intros e. destruct (read_text os s file_path) as [contents|].
    + destruct (load_lines _) as [e'|[[rows cols] m]]; [|discriminate].
      intros [= <-]. eauto.
    + intros [= <-]. eauto.
Qed.

Lemma from_file_errors_witness :
  from_file flat_files ∅ "missing.txt" = inl (WrongFormat FileNotFoundError).
Proof.
  apply (from_file_errors flat_files ∅ "missing.txt"); [discriminate|reflexivity].
Defined.

Lemma universal_newlines_cons c s :
  universal_newlines (c :: s) =
  if Ascii.eqb c carriage_return then
    match s with
    | c' :: s' =>
        if Ascii.eqb c' newline then newline :: universal_newlines s'
        else newline :: universal_newlines s
    | [] => [newline]
    end
  else c :: universal_newlines s.
Proof. reflexivity. Qed.

Lemma universal_newlines_app_bounded (n : nat) : forall x y,
  (length x <= n)%nat ->
  universal_newlines ((x ++ [newline]) ++ y) =
  universal_newlines (x ++ [newline]) ++ universal_newlines y /\
  exists u, universal_newlines (x ++ [newline]) = u ++ [newline].
Proof.
  induction n as [|n IH]; intros x y Hlen.
  - destruct x; [|simpl in Hlen; lia]. split; [reflexivity|now exists []].
  - destruct x as [|c x]; [split; [reflexivity|now exists []]|].
    simpl in Hlen. rewrite <- !app_comm_cons, !universal_newlines_cons.
    destruct (Ascii.eqb c carriage_return).
    + destruct x as [|c' x]; [split; [reflexivity|now exists []]|].
      rewrite <- !app_comm_cons.
      destruct (Ascii.eqb c' newline).
      * destruct (IH x y) as [-> [u ->]]; [simpl in Hlen; lia|].
        split; [reflexivity|now exists (newline :: u)].
      * rewrite !app_comm_cons.
        destruct (IH (c' :: x) y) as [-> [u ->]]; [lia|].
        split; [reflexivity|now exists (newline :: u)].
    + destruct (IH x y) as [-> [u ->]]; [lia|].
      split; [reflexivity|now exists (c :: u)].
Qed.

Lemma lines_of_app u : forall rest,
  lines_of ((u ++ [newline]) ++ rest) = lines_of (u ++ [newline]) ++ lines_of rest.
Proof.
  induction u as [|c u IH]; intros rest; [reflexivity|].
  rewrite <- !app_comm_cons. cbn [lines_of].
  destruct (Ascii.eqb c newline).
  - now rewrite IH.
  - rewrite IH. destruct (lines_of (u ++ [newline])) as [|l ls] eqn:E; [|reflexivity].
    exfalso. destruct u; simpl in E; [discriminate|].
    destruct (Ascii.eqb _ newline); [discriminate|].
    destruct (lines_of _); discriminate.
Qed.

(** The lines of a text that follows a complete line come after the lines
    read so far. *)
Lemma input_lines_app x y :
  input_lines ((x ++ [newline]) ++ y) = input_lines (x ++ [newline]) ++ input_lines y.
Proof.
  unfold input_lines.
  destruct (universal_newlines_app_bounded (length x) x y (le_n _)) as [-> [u ->]].
  apply lines_of_app.
Qed.



Lemma load_lines_app lines more :
  (2 <= length lines)%nat ->
  load_lines (lines ++ more) =
  match load_lines lines with
  | inl e => inl e
  | inr (rows, cols, m) =>
      match load_entries more m with
      | inl e => inl e
      | inr m' => inr (rows, cols, m')
      end
  end.
Proof.
  intros Hlen. destruct lines as [|l0 [|l1 ls]]; simpl in Hlen; try lia.
  unfold load_lines. simpl.
  destruct (header_value l0) as [e|rows]; simpl; [reflexivity|].
  destruct (header_value l1) as [e|cols]; simpl; [reflexivity|].
  rewrite !skipn_O, load_entries_app.
  destruct (load_entries ls []) as [e|m]; reflexivity.
Qed.



Lemma universal_newlines_chars s : forall c,
  In c (universal_newlines s) -> In c s \/ c = newline.
Proof.
  assert (H : forall n s, (length s <= n)%nat ->
                forall c, In c (universal_newlines s) -> In c s \/ c = newline).
  { clear s. induction n as [|n IH]; intros s Hlen c.
    - destruct s; [simpl; tauto|simpl in Hlen; lia].
    - destruct s as [|c0 s]; [simpl; tauto|]. simpl in Hlen.
      rewrite universal_newlines_cons.
      destruct (Ascii.eqb c0 carriage_return).
      + destruct s as [|c1 s]; [simpl; intuition|].
        destruct (Ascii.eqb c1 newline).
        * intros [<-|Hin]; [now right|].
          apply IH in Hin as [Hin|Hin]; [|now right|simpl in Hlen; lia].
          left. right. now right.
        * intros [<-|Hin]; [now right|].
          apply IH in Hin as [Hin|Hin]; [|now right|lia].
          left. now right.
      + intros [<-|Hin]; [left; now left|].
        apply IH in Hin as [Hin|Hin]; [|now right|lia]. left. now right. }
  apply (H (length s)). lia.
Qed.

Lemma lines_of_chars s : forall l c, In l (lines_of s) -> In c l -> In c s.
Proof.
  induction s as [|c0 s IH]; intros l c; simpl; [tauto|].
  destruct (Ascii.eqb c0 newline).
  - intros [<-|Hin] Hc; [destruct Hc as [<-|[]]; now left|]. right. eauto.
  - destruct (lines_of s) as [|l0 ls] eqn:E.
    + intros [<-|[]] [<-|[]]. now left.
    + intros [<-|Hin] Hc.
      * destruct Hc as [<-|Hc]; [now left|]. right. apply (IH l0); [now left|exact Hc].
      * right. apply (IH l); [now right|exact Hc].
Qed.

Lemma strip_blank l : forallb Py_UNICODE_ISSPACE l = true -> strip l = [].
Proof.
  intros H. unfold strip, lstrip. now rewrite drop_while_all_nil.
Qed.

Lemma load_entries_blank ls : forall m,
  (forall l, In l ls -> strip l = []) -> load_entries ls m = inr m.
Proof.
  induction ls as [|l ls IH]; intros m H; simpl; [reflexivity|].
  rewrite (H l) by now left. apply IH. intros l' Hl'. apply H. now right.
Qed.

(** X18. Lines of white space only, anywhere after the first two lines of
    a file, change nothing: the file loads to the same matrix, or fails
    with the same exception, as without them. *)
Theorem parse_skips_blank_lines (x w y : text) :
  (2 <= length (input_lines (x ++ [newline])))%nat ->
  forallb Py_UNICODE_ISSPACE w = true ->
  parse ((x ++ [newline]) ++ (w ++ [newline]) ++ y) = parse ((x ++ [newline]) ++ y).
Proof.
  intros Hlen Hw. unfold parse, load_matrix. f_equal.
  fold (input_lines ((x ++ [newline]) ++ (w ++ [newline]) ++ y)).
  fold (input_lines ((x ++ [newline]) ++ y)).
  rewrite !input_lines_app, !load_lines_app by exact Hlen.
  destruct (load_lines (input_lines (x ++ [newline]))) as [e|[[rows cols] m]];
    [reflexivity|].
  rewrite load_entries_app, load_entries_blank; [reflexivity|].
  intros l Hl. apply strip_blank. apply forallb_forall. intros c Hc.
  pose proof (lines_of_chars _ l c Hl Hc) as Hin.
  apply universal_newlines_chars in Hin as [Hin| ->]; [|reflexivity].
  apply in_app_iff in Hin as [Hin|[<-|[]]]; [|reflexivity].
  rewrite forallb_forall in Hw. now apply Hw.
Qed.

Lemma parse_skips_blank_lines_witness :
  parse ((txt "rows=1
cols=1" ++ [newline]) ++ (txt "   " ++ [newline]) ++ txt "(0, 0, 5)") =
  parse ((txt "rows=1
cols=1" ++ [newline]) ++ txt "(0, 0, 5)").
Proof. apply parse_skips_blank_lines; vm_compute; [lia|reflexivity]. Defined.

Lemma forallb_rev {A : Type} (p : A -> bool) (l : list A) :
  forallb p l = true -> forallb p (rev l) = true.
Proof.
  rewrite !forallb_forall. intros H x Hx. apply H. now apply in_rev.
Qed.

Lemma strip_delimited w0 opening body closing w1 :
  forallb Py_UNICODE_ISSPACE w0 = true -> forallb Py_UNICODE_ISSPACE w1 = true ->
  Py_UNICODE_ISSPACE opening = false -> Py_UNICODE_ISSPACE closing = false ->
  strip (w0 ++ opening :: body ++ closing :: w1) = opening :: body ++ [closing].
Proof.
  intros Hw0 Hw1 Ho Hc. unfold strip, lstrip, rstrip.
  rewrite drop_while_all by exact Hw0. rewrite drop_while_stop by exact Ho.
  replace (opening :: body ++ closing :: w1)
    with ((opening :: body) ++ closing :: w1) by reflexivity.
  rewrite rev_app_distr. simpl rev at 1. rewrite <- app_assoc.
  rewrite drop_while_all by now apply forallb_rev.
  simpl app. rewrite drop_while_stop by exact Hc.
  simpl rev at 1. rewrite rev_app_distr, rev_involutive. reflexivity.
Qed.

Lemma spaces_lack c w :
  Py_ISSPACE c = false -> forallb Py_ISSPACE w = true -> ~ In c w.
Proof.
  intros Hc Hw Hin. rewrite forallb_forall in Hw. rewrite (Hw c Hin) in Hc.
  discriminate.
Qed.

Lemma token_lacks_comma w n w' :
  forallb Py_ISSPACE w = true -> forallb Py_ISSPACE w' = true ->
  ~ In ","%char (w ++ str_int n ++ w').
Proof.
  intros Hw Hw'. rewrite !in_app_iff. intros [H|[H|H]].
  - now apply (spaces_lack ","%char w).
  - now apply str_int_lacks in H.
  - now apply (spaces_lack ","%char w').
Qed.

Lemma Py_ISSPACE_all_strip (w : text) :
  forallb Py_ISSPACE w = true -> forallb Py_UNICODE_ISSPACE w = true.
Proof.
  rewrite !forallb_forall. intros H c Hc. unfold Py_UNICODE_ISSPACE.
  now rewrite (H c Hc).
Qed.

(** X19. An entry line is read as its three integers whatever runs of
    spaces, tabs, newlines, vertical tabs, form feeds and carriage returns
    stand around the line and around each number, and whatever the two
    characters are that stand where the parentheses are expected, provided
    [str.strip] leaves them in place. *)
Theorem parse_entry_white_space
    (w0 w1 w2 w3 w4 w5 w6 w7 : text) (opening closing : ascii) (row col value : Z) :
  forallb Py_ISSPACE w0 = true -> forallb Py_ISSPACE w1 = true ->
  forallb Py_ISSPACE w2 = true -> forallb Py_ISSPACE w3 = true ->
  forallb Py_ISSPACE w4 = true -> forallb Py_ISSPACE w5 = true ->
  forallb Py_ISSPACE w6 = true -> forallb Py_ISSPACE w7 = true ->
  Py_UNICODE_ISSPACE opening = false -> Py_UNICODE_ISSPACE closing = false ->
  parse_entry
    (w0 ++ opening
        :: ((w1 ++ str_int row ++ w2) ++ ","%char
            :: (w3 ++ str_int col ++ w4) ++ ","%char
            :: (w5 ++ str_int value ++ w6))
        ++ closing :: w7)
  = inr (row, col, value).
Proof.
  intros H0 H1 H2 H3 H4 H5 H6 H7 Ho Hc. unfold parse_entry.
  rewrite strip_delimited by (assumption || now apply Py_ISSPACE_all_strip).
  rewrite slice_1_m1_delimited.
  rewrite split_first by now apply token_lacks_comma.
  rewrite split_first by now apply token_lacks_comma.
  rewrite split_absent by now apply token_lacks_comma.
  unfold index, int_of. simpl.
  rewrite !py_int_str_int by assumption. reflexivity.
Qed.

Lemma parse_entry_white_space_witness :
  parse_entry (txt "  <" ++ (txt " " ++ str_int 3 ++ []) ++ ","%char
               :: ([] ++ str_int (-4) ++ txt " ") ++ ","%char
               :: (txt "  " ++ str_int 5 ++ txt " ") ++ ">"%char :: [newline])
  = inr (3, -4, 5).
Proof.
  apply (parse_entry_white_space (txt "  ") (txt " ") [] [] (txt " ") (txt "  ")
           (txt " ") [newline] "<"%char ">"%char 3 (-4) 5); reflexivity.
Defined.

(** ** In-place assignment on the store *)

Lemma contents_footprint h h' b B :
  Store.contents h b = Some B ->
  (forall l, l ∈ Store.footprint h b -> h' !! l = h !! l) ->
  Store.contents h' b = Some B.
Proof.
  intros HB Hsame. apply contents_inv in HB as (m & d & Hb & Hm & Hrows).
  assert (Hfp : Store.footprint h b = {[b]} ∪ {[m]} ∪ list_to_set (map snd d)).
  { unfold Store.footprint, Store.rows_of. now rewrite Hb, Hm. }
  rewrite Hfp in Hsame. clear Hfp. destruct B as [rs nr nc]. simpl in *.
  apply (contents_intro h' b m d).
  - rewrite Hsame; [exact Hb|set_solver].
  - rewrite Hsame; [exact Hm|set_solver].
  - rewrite <- Hrows. apply read_rows_ext. intros l Hl. apply Hsame.
    apply elem_of_union_r. apply elem_of_list_to_set. now apply list_elem_of_In.
Qed.

Lemma set_element_outside_footprint h r R row col v h' :
  Store.contents h r = Some R ->
  Store.set_element h r row col v = Some h' ->
  forall l, l ∈ dom h -> l ∉ Store.footprint h r -> h' !! l = h !! l.
Proof.
  intros HR Hset l Hl Hout.
  apply contents_inv in HR as (m & d & Hr & Hm & Hrows).
  assert (Hfp : Store.footprint h r = {[r]} ∪ {[m]} ∪ list_to_set (map snd d)).
  { unfold Store.footprint, Store.rows_of. now rewrite Hr, Hm. }
  rewrite Hfp in Hout. clear Hfp.
  assert (Hlm : m <> l) by set_solver.
  unfold Store.set_element, Store.rows_of in Hset. rewrite Hr, Hm in Hset.
  simpl in Hset. destruct (dict_lookup d row) as [l0|] eqn:El.
  - assert (Hl0 : l0 <> l).
    { intros ->. apply Hout. apply elem_of_union_r. apply elem_of_list_to_set.
      apply list_elem_of_In. eapply dict_lookup_snd; eauto. }
    destruct (Store.cols_at h l0) as [cd|]; [|discriminate]. simpl in Hset.
    injection Hset as <-. now rewrite lookup_insert_ne.
  - unfold Store.alloc in Hset. simpl in Hset.
    assert (Hfresh : fresh (dom h) <> l).
    { intros <-. now apply (is_fresh (dom h)). }
    destruct (Store.cols_at _ (fresh (dom h))) as [cd|]; [|discriminate].
    simpl in Hset. injection Hset as <-.
    now rewrite !lookup_insert_ne.
Qed.

(** X20. [set_element] works in place: on an instance whose rows are
    distinct objects it succeeds and the instance then stands for the
    matrix assigned to, while every matrix of the store that shares no
    object with it stands for the same matrix as before. *)
Theorem store_set_element_in_place
    (h : Store.store) (r b : Store.loc) (R B : SparseMatrix) (row col v : Z) :
  Store.contents h r = Some R ->
  Store.contents h b = Some B ->
  distinct_rows h r ->
  Store.footprint h b ## Store.footprint h r ->
  exists h',
    Store.set_element h r row col v = Some h' /\
    Store.contents h' r = Some (set_element R row col v) /\
    Store.contents h' b = Some B.
Proof.
  intros HR HB (m & d & Hrows & Hnd) Hdisj.
  assert (Hown : Store.owned ∅ h r).
  { pose proof HR as HR'. apply contents_inv in HR' as (m' & d' & Hr & Hm & _).
    unfold Store.rows_of in Hrows. rewrite Hr, Hm in Hrows. injection Hrows as <- <-.
    exists m', d', (numRows R), (numCols R).
    repeat split; auto; rewrite dom_empty_L; set_solver. }
  assert (Hun : Store.unchanged ∅ h).
  { intros l Hl. rewrite dom_empty_L in Hl. set_solver. }
  destruct (set_element_sim ∅ h r R row col v Hun Hown HR) as (h' & Hset & _ & _ & HR').
  exists h'. split; [exact Hset|]. split; [exact HR'|].
  apply (contents_footprint h h' b B HB). intros l Hl.
  apply (set_element_outside_footprint h r R row col v h' HR Hset).
  - apply contents_inv in HB as (mb & db & Hb & Hmb & Hrb).
    unfold Store.footprint, Store.rows_of in Hl. rewrite Hb, Hmb in Hl.
    apply elem_of_union in Hl as [Hl|Hl].
    + apply elem_of_union in Hl as [Hl|Hl]; apply elem_of_singleton in Hl; subst;
        eapply in_dom_Some; eauto.
    + apply elem_of_list_to_set, list_elem_of_In in Hl.
      destruct (read_rows_cols h db _ l Hrb Hl) as [cd Hcd].
      eapply in_dom_Some; eauto.
  - intros Hr. apply (Hdisj l Hl Hr).
Qed.

Lemma store_set_element_in_place_witness :
  exists h',
    Store.set_element example_store 2%positive 4 4 9 = Some h' /\
    Store.contents h' 2%positive = Some (set_element example_left 4 4 9) /\
    Store.contents h' 6%positive = Some example_right.
Proof.
  apply (store_set_element_in_place example_store 2%positive 6%positive
           example_left example_right 4 4 9).
  - vm_compute. reflexivity.
  - vm_compute. reflexivity.
  - exists 1%positive, [(0, 3%positive)]. split; [vm_compute; reflexivity|].
    repeat constructor. simpl. tauto.
  - unfold Store.footprint.
    replace (Store.rows_of example_store 6%positive)
      with (Some (4%positive, [(1, 5%positive)])) by (vm_compute; reflexivity).
    replace (Store.rows_of example_store 2%positive)
      with (Some (1%positive, [(0, 3%positive)])) by (vm_compute; reflexivity).
    apply (bool_decide_unpack _). vm_compute. exact I.
Defined.

(** ** The command-line driver *)


(** X21. The driver asks for one file to be written at most, and only
    when all that comes before has succeeded: the output path as it was
    typed, with the text of the sum, the difference or the product of the
    two matrices it loaded. When it stops on an exception the files are in
    the state in which it found them. *)
Theorem main_writes_only_the_result {S : Type} (os : file_system S) (s : S)
    (stdin : list string) :
  match main os s stdin with
  | (_, s', Finished) =>
      exists matrix1 matrix2 R answer output_file rest,
        load_file os s sample_1 = inr matrix1 /\
        load_file os s sample_2 = inr matrix2 /\
        stdin = answer :: output_file :: rest /\
        (R = add matrix1 matrix2 \/ R = subtract matrix1 matrix2 \/
         multiply matrix1 matrix2 = inr R) /\
        save_to_file R os s output_file = Some s'
  | (_, s', _) => s' = s
  end.
Proof.
  unfold main.
  destruct (load_file os s sample_1) as [e|m1]; [reflexivity|].
  destruct (load_file os s sample_2) as [e|m2]; [reflexivity|].
  destruct stdin as [|answer stdin]; [reflexivity|].
  destruct (int_of (txt answer)) as [e|choice]; [reflexivity|].
  destruct (select choice m1 m2) as [e|[[R|] message]] eqn:E; [reflexivity| |].
  - destruct stdin as [|output_file stdin]; [reflexivity|].
    destruct (save_to_file R os s output_file) as [s'|] eqn:W; [|reflexivity].
    exists m1, m2, R, answer, output_file, stdin.
    do 3 (split; [reflexivity|]). split; [|exact W].
    unfold select in E.
    destruct (choice =? 1); [injection E as <- _; now left|].
    destruct (choice =? 2); [injection E as <- _; right; now left|].
    destruct (choice =? 3); [|discriminate].
    destruct (multiply m1 m2) as [e|P]; [discriminate|].
    injection E as <- _. right. now right.
  - destruct stdin as [|output_file stdin]; reflexivity.
Qed.

(** X22. With an answer that is an integer other than 1, 2 and 3, the
    driver prints the message about the invalid choice, still asks for the
    output path, and then stops on a [NameError] without writing any
    file. *)
Theorem main_invalid_choice {S : Type} (os : file_system S) (s : S)
    (answer output_file : string) (rest : list string)
    (matrix1 matrix2 : SparseMatrix) (choice : Z) :
  load_file os s sample_1 = inr matrix1 ->
  load_file os s sample_2 = inr matrix2 ->
  py_int (txt answer) = Some choice ->
  choice <> 1 -> choice <> 2 -> choice <> 3 ->
  main os s (answer :: output_file :: rest) =
    (menu ++ ["Invalid choice. Please enter 1, 2, or 3.
"; "Enter the output file path to save the result: "],
     s, RaisedNameError).
Proof.
  intros H1 H2 Hint Hc1 Hc2 Hc3. unfold main, int_of, select.
  rewrite H1, H2, Hint.
  apply Z.eqb_neq in Hc1, Hc2, Hc3. rewrite Hc1, Hc2, Hc3. reflexivity.
Qed.


Lemma main_invalid_choice_witness :
  main flat_files driver_fs ["7"; "out.txt"] =
    (menu ++ ["Invalid choice. Please enter 1, 2, or 3.
"; "Enter the output file path to save the result: "],
     driver_fs, RaisedNameError).
Proof.
  apply (main_invalid_choice flat_files driver_fs "7" "out.txt" []
           driver_matrix1 driver_matrix2 7);
    try (vm_compute; reflexivity); lia.
Defined.

